(** * compile_language_docs: a shallow embedding of bin/compile_language_docs.py

    The script collects every markdown file under [docs/10_language], joins
    their right-trimmed contents under [# File: ...] headings and writes the
    result to standard output or to a destination file.

    The embedding follows the script function by function
    ([collect_markdown_files], [build_compilation], [write_output],
    [parse_args], [main]).  What the script takes from the Python library
    ([str], [pathlib.PurePosixPath], the file system calls behind [Path]) is
    modelled first:

    - a Python [str] is the list of its code points;
    - a [Path] is an anchor and a list of segments, POSIX flavour;
    - the file system is a tree of directories and regular files, looked up
      from the root the way the kernel resolves a path, [..] included; there
      are no symbolic links, permissions or quotas in the model, and no
      limit on the length of a name or of a path;
    - the working directory is a directory of the tree: a process whose
      working directory has been removed is outside the model, and
      resolution from such a place fails;
    - a regular file holds either the text its bytes decode to as UTF-8, or
      bytes that are not UTF-8; text written to a file is encoded as UTF-8,
      which fails on a surrogate code point;
    - standard output is the text written to it so far; it takes every
      string (its encoding and error handler are the environment's);
    - the command line is the optional positional argument;
    - an exception leaves the world as it was when it was raised. *)

From Stdlib Require Import List Arith NArith Bool Lia String Ascii Sorted
  Permutation.
Import ListNotations.

Set Implicit Arguments.
Set Warnings "-register-all".

(* ================================================================== *)
(** * Python strings *)
(* ================================================================== *)

Module Str.

Definition codepoint := N.

(** A Python [str]. *)
Definition str := list codepoint.

(** A literal of the source, read code point by code point. *)
Definition lit (s : string) : str := map N_of_ascii (list_ascii_of_string s).
Arguments lit : simpl never.

Definition LF : codepoint := 10%N.
Definition CR : codepoint := 13%N.
Definition SLASH : codepoint := 47%N.

(** [s.encode("utf-8")] returns: no code point of [s] is a surrogate
    (U+D800 to U+DFFF), which is what [os.fsdecode] leaves of a byte of a
    file name that is not UTF-8. *)
Definition surrogate (c : codepoint) : bool :=
  ((55296 <=? c) && (c <=? 57343))%N.

Definition encodable (s : list codepoint) : bool :=
  forallb (fun c => negb (surrogate c)) s.

Fixpoint eqb (a b : str) : bool :=
  match a, b with
  | [], [] => true
  | x :: a', y :: b' => N.eqb x y && eqb a' b'
  | _, _ => false
  end.

(** [str.isspace] on one code point: the characters [str.rstrip()] removes
    (CPython's [_PyUnicode_IsWhitespace]). *)
Definition isspace (c : codepoint) : bool :=
  ((9 <=? c) && (c <=? 13) || (28 <=? c) && (c <=? 32)
   || (c =? 133) || (c =? 160) || (c =? 5760)
   || (8192 <=? c) && (c <=? 8202)
   || (c =? 8232) || (c =? 8233) || (c =? 8239) || (c =? 8287)
   || (c =? 12288))%N.

Fixpoint drop_space (s : str) : str :=
  match s with
  | [] => []
  | c :: r => if isspace c then drop_space r else s
  end.

(** [s.rstrip()]: the scan runs from the right end. *)
Definition rstrip (s : str) : str := rev (drop_space (rev s)).

(** [sep.join(xs)]. *)
Fixpoint join (sep : str) (xs : list str) : str :=
  match xs with
  | [] => []
  | x :: rest =>
      match rest with
      | [] => x
      | _ :: _ => x ++ sep ++ join sep rest
      end
  end.

(** [s.split(sep)] for a one-character separator. *)
Fixpoint split (sep : codepoint) (s : str) : list str :=
  match s with
  | [] => [[]]
  | c :: r =>
      if N.eqb c sep then [] :: split sep r
      else match split sep r with
           | [] => [[c]]
           | l :: ls => (c :: l) :: ls
           end
  end.

(** [s.startswith(p)] and [s.endswith(p)]. *)
Fixpoint startswith (s p : str) {struct p} : bool :=
  match p, s with
  | [], _ => true
  | _ :: _, [] => false
  | y :: p', x :: s' => N.eqb x y && startswith s' p'
  end.

Definition endswith (s p : str) : bool := startswith (rev s) (rev p).

(** Text mode reading with [newline=None]: CR LF and a lone CR become LF. *)
Fixpoint universal_newlines (s : str) : str :=
  match s with
  | [] => []
  | c :: r =>
      if N.eqb c CR then
        match r with
        | d :: r' => if N.eqb d LF then LF :: universal_newlines r'
                     else LF :: universal_newlines r
        | [] => [LF]
        end
      else c :: universal_newlines r
  end.

(** Lexicographic comparison, as [<] on [str] and on [list]. *)
Section Lex.
Variable A : Type.
Variable cmp : A -> A -> comparison.

Fixpoint lex (a b : list A) : comparison :=
  match a, b with
  | [], [] => Eq
  | [], _ :: _ => Lt
  | _ :: _, [] => Gt
  | x :: a', y :: b' =>
      match cmp x y with
      | Eq => lex a' b'
      | c => c
      end
  end.
End Lex.

Definition compare : str -> str -> comparison := lex N.compare.

End Str.

Import Str.

(* ================================================================== *)
(** * Exceptions and results *)
(* ================================================================== *)

Inductive exc : Type :=
| ValueError
| IndexError
| UnicodeDecodeError
| UnicodeEncodeError
| FileNotFoundError
| NotADirectoryError
| IsADirectoryError
| FileExistsError
| SystemExit (code : str).

Inductive result (A : Type) : Type :=
| Ok (a : A)
| Raise (e : exc).

Arguments Ok {A} a.
Arguments Raise {A} e.

(** [isinstance(e, ValueError)]: [UnicodeDecodeError] is a subclass. *)
Definition is_ValueError (e : exc) : bool :=
  match e with
  | ValueError | UnicodeDecodeError => true
  | _ => false
  end.

Definition rbind {A B} (r : result A) (k : A -> result B) : result B :=
  match r with
  | Ok a => k a
  | Raise e => Raise e
  end.

Declare Scope py_scope.
Delimit Scope py_scope with py.
Notation "x <- r ;; k" := (rbind r (fun x => k))
  (at level 100, r at next level, right associativity) : py_scope.

(* ================================================================== *)
(** * pathlib, POSIX flavour *)
(* ================================================================== *)

Inductive anchor : Type := Relative | Root | Root2.

Definition anchor_eqb (a b : anchor) : bool :=
  match a, b with
  | Relative, Relative | Root, Root | Root2, Root2 => true
  | _, _ => false
  end.

Record Path : Type := mkPath { anchor_of : anchor; parts : list str }.

(** [Path(s)]: the root is split off, then empty and [.] segments go. *)
Definition splitroot (s : str) : anchor * str :=
  match s with
  | 47%N :: r =>
      match r with
      | 47%N :: r2 =>
          match r2 with
          | 47%N :: _ => (Root, r)
          | _ => (Root2, r2)
          end
      | _ => (Root, r)
      end
  | _ => (Relative, s)
  end.

Definition keep_segment (x : str) : bool :=
  negb (Str.eqb x []) && negb (Str.eqb x (lit ".")).

Definition parse_path (s : str) : Path :=
  let (a, rel) := splitroot s in
  mkPath a (filter keep_segment (split SLASH rel)).

(** [str(p)]. *)
Definition path_str (p : Path) : str :=
  match anchor_of p with
  | Root => lit "/" ++ join (lit "/") (parts p)
  | Root2 => lit "//" ++ join (lit "/") (parts p)
  | Relative =>
      match parts p with
      | [] => lit "."
      | _ :: _ => join (lit "/") (parts p)
      end
  end.

(** [p / q] for a path [q], and [p / s] for a string. *)
Definition joinpath (p q : Path) : Path :=
  match anchor_of q with
  | Relative => mkPath (anchor_of p) (parts p ++ parts q)
  | _ => q
  end.

Definition truediv (p : Path) (s : str) : Path := joinpath p (parse_path s).

(** [_make_child_relpath]: one more segment. *)
Definition child (p : Path) (name : str) : Path :=
  mkPath (anchor_of p) (parts p ++ [name]).

(** [p.parent]. *)
Definition parent (p : Path) : Path :=
  mkPath (anchor_of p) (removelast (parts p)).

(** [p.parents], nearest first. *)
Fixpoint parents_rev (a : anchor) (rparts : list str) : list Path :=
  match rparts with
  | [] => []
  | _ :: r => mkPath a (rev r) :: parents_rev a r
  end.

Definition parents (p : Path) : list Path :=
  parents_rev (anchor_of p) (rev (parts p)).

(** [p.parents[n]]. *)
Definition parents_nth (p : Path) (n : nat) : result Path :=
  match nth_error (parents p) n with
  | Some q => Ok q
  | None => Raise IndexError
  end.

(** [xs] without the prefix [pre], when [pre] is a prefix. *)
Fixpoint strip_prefix (pre xs : list str) : option (list str) :=
  match pre, xs with
  | [], _ => Some xs
  | _ :: _, [] => None
  | y :: pre', x :: xs' => if Str.eqb x y then strip_prefix pre' xs' else None
  end.

(** [p.relative_to(other)]. *)
Definition relative_to (p other : Path) : result Path :=
  if anchor_eqb (anchor_of p) (anchor_of other) then
    match strip_prefix (parts other) (parts p) with
    | Some rest => Ok (mkPath Relative rest)
    | None => Raise ValueError
    end
  else Raise ValueError.

(** [p < q] on paths compares the lists [_cparts]: the anchor, when there is
    one, then the segments. *)
Definition cparts (p : Path) : list str :=
  match anchor_of p with
  | Relative => parts p
  | Root => lit "/" :: parts p
  | Root2 => lit "//" :: parts p
  end.

Definition path_compare (p q : Path) : comparison :=
  lex Str.compare (cparts p) (cparts q).

Definition path_ltb (p q : Path) : bool :=
  match path_compare p q with
  | Lt => true
  | _ => false
  end.

(* ================================================================== *)
(** * The file system and the process *)
(* ================================================================== *)

(** What a regular file holds: bytes that decode as UTF-8 to [text], or
    bytes that do not decode. *)
Inductive filedata : Type :=
| Utf8 (text : str)
| NotUtf8.

Inductive node : Type :=
| File (data : filedata)
| Dir (entries : list (str * node)).

Definition dirents := list (str * node).

(** The world a run sees: the entries of [/], the working directory (an
    absolute list of names) and what has been written to standard output. *)
Record World : Type := mkWorld {
  root : dirents;
  cwd : list str;
  stdout : str
}.

Definition set_root (w : World) (r : dirents) : World :=
  mkWorld r (cwd w) (stdout w).

Definition set_stdout (w : World) (s : str) : World :=
  mkWorld (root w) (cwd w) s.

(** Entry [k] of a directory, in listing order. *)
Fixpoint find_entry (k : str) (es : dirents) : option node :=
  match es with
  | [] => None
  | (k', n) :: es' => if Str.eqb k' k then Some n else find_entry k es'
  end.

(** The node a list of names leads to, from a directory. *)
Fixpoint lookup (es : dirents) (cp : list str) : option node :=
  match cp with
  | [] => Some (Dir es)
  | s :: rest =>
      match find_entry s es with
      | Some (Dir sub) => lookup sub rest
      | Some (File d) =>
          match rest with
          | [] => Some (File d)
          | _ :: _ => None
          end
      | None => None
      end
  end.

(** Replace entry [k] by [f] of it; [f None] is appended when [k] is new. *)
Fixpoint alter (f : option node -> option node) (k : str) (es : dirents)
  : dirents :=
  match es with
  | [] =>
      match f None with
      | Some n => [(k, n)]
      | None => []
      end
  | (k', n) :: es' =>
      if Str.eqb k' k then
        match f (Some n) with
        | Some n' => (k', n') :: es'
        | None => es'
        end
      else (k', n) :: alter f k es'
  end.

(** What becomes of the entry on the way to the place [new] is put at:
    with no names left, [new] takes the place or is created; otherwise a
    directory is entered and anything else is left as it is. *)
Definition put_entry (rest : list str) (new : node)
           (enter : dirents -> dirents) (o : option node) : option node :=
  match rest with
  | [] => Some new
  | _ :: _ =>
      match o with
      | Some (Dir sub) => Some (Dir (enter sub))
      | other => other
      end
  end.

(** Put [new] at the end of the names [cp]. *)
Fixpoint put (es : dirents) (cp : list str) (new : node) : dirents :=
  match cp with
  | [] => es
  | s :: rest => alter (put_entry rest new (fun sub => put sub rest new)) s es
  end.

(** One step of path resolution from the directory [cur]. *)
Definition step (cur : list str) (s : str) : list str :=
  if Str.eqb s (lit "..") then removelast cur else cur ++ [s].

(** Path resolution: every segment is taken from a directory that exists;
    the result names the target, which may not exist. *)
Fixpoint namei (es : dirents) (cur : list str) (segs : list str)
  : result (list str) :=
  match segs with
  | [] => Ok cur
  | s :: rest =>
      match lookup es cur with
      | Some (Dir _) => namei es (step cur s) rest
      | Some (File _) => Raise NotADirectoryError
      | None => Raise FileNotFoundError
      end
  end.

(** Where resolution starts: [/], or the working directory. *)
Definition start (w : World) (a : anchor) : list str :=
  match a with
  | Relative => cwd w
  | _ => []
  end.

(** The directory resolution starts from has to be in the tree. *)
Definition resolve (w : World) (p : Path) : result (list str) :=
  match lookup (root w) (start w (anchor_of p)) with
  | Some (Dir _) => namei (root w) (start w (anchor_of p)) (parts p)
  | _ => Raise FileNotFoundError
  end.

(** [os.stat(p)], as far as the kind and data of the node. *)
Definition stat (w : World) (p : Path) : result node :=
  (c <- resolve w p ;;
   match lookup (root w) c with
   | Some n => Ok n
   | None => Raise FileNotFoundError
   end)%py.

(** [p.exists()], [p.is_dir()], [p.is_file()]: a failing [stat] is [False]. *)
Definition exists_ (w : World) (p : Path) : bool :=
  match stat w p with
  | Ok _ => true
  | Raise _ => false
  end.

Definition is_dir (w : World) (p : Path) : bool :=
  match stat w p with
  | Ok (Dir _) => true
  | _ => false
  end.

Definition is_file (w : World) (p : Path) : bool :=
  match stat w p with
  | Ok (File _) => true
  | _ => false
  end.

(** [p.read_text(encoding="utf-8")]. *)
Definition read_text (w : World) (p : Path) : result str :=
  (n <- stat w p ;;
   match n with
   | Dir _ => Raise IsADirectoryError
   | File (Utf8 s) => Ok (universal_newlines s)
   | File NotUtf8 => Raise UnicodeDecodeError
   end)%py.

(** Code that changes the world: a result and the world it leaves, also
    when it raises. *)
Definition M (A : Type) : Type := World -> result A * World.

Definition ret {A} (a : A) : M A := fun w => (Ok a, w).
Definition raise {A} (e : exc) : M A := fun w => (Raise e, w).
Definition bind {A B} (m : M A) (k : A -> M B) : M B :=
  fun w =>
    match m w with
    | (Ok a, w') => k a w'
    | (Raise e, w') => (Raise e, w')
    end.
(** Code that only reads the world. *)
Definition reads {A} (f : World -> result A) : M A := fun w => (f w, w).

Notation "x <~ m ;; k" := (bind m (fun x => k))
  (at level 100, m at next level, right associativity) : py_scope.
Notation "m ;;; k" := (bind m (fun _ => k))
  (at level 100, right associativity) : py_scope.

(** [os.mkdir(p)]. *)
Definition os_mkdir (p : Path) : M unit :=
  fun w =>
    match resolve w p with
    | Raise e => (Raise e, w)
    | Ok c =>
        match lookup (root w) c with
        | Some _ => (Raise FileExistsError, w)
        | None => (Ok tt, set_root w (put (root w) c (Dir [])))
        end
    end.

(** [p.mkdir(parents=False, exist_ok=exist_ok)]. *)
Definition mkdir_here (exist_ok : bool) (p : Path) : M unit :=
  fun w =>
    match os_mkdir p w with
    | (Ok tt, w') => (Ok tt, w')
    | (Raise FileNotFoundError, w') => (Raise FileNotFoundError, w')
    | (Raise e, w') =>
        if negb exist_ok || negb (is_dir w' p) then (Raise e, w')
        else (Ok tt, w')
    end.

(** [p.mkdir(parents=True, exist_ok=True)], [p] given by its anchor and its
    segments last first; the recursion is on the parent. *)
Fixpoint mkdir_parents (a : anchor) (rparts : list str) : M unit :=
  fun w =>
    let p := mkPath a (rev rparts) in
    match os_mkdir p w with
    | (Ok tt, w') => (Ok tt, w')
    | (Raise FileNotFoundError, w') =>
        match rparts with
        | [] => (Raise FileNotFoundError, w')
        | _ :: up =>
            (mkdir_parents a up ;;; mkdir_here true p)%py w'
        end
    | (Raise e, w') =>
        if negb (is_dir w' p) then (Raise e, w') else (Ok tt, w')
    end.

(** [p.mkdir(parents=True, exist_ok=True)]. *)
Definition mkdir_p (p : Path) : M unit :=
  mkdir_parents (anchor_of p) (rev (parts p)).

(** [p.write_text(data, encoding="utf-8")]: the file is opened for writing,
    which creates or empties it; then [data] is encoded and becomes all the
    file holds, or the encoder raises and the file stays empty. *)
Definition write_text (p : Path) (data : str) : M unit :=
  fun w =>
    match resolve w p with
    | Raise e => (Raise e, w)
    | Ok c =>
        match lookup (root w) c with
        | Some (Dir _) => (Raise IsADirectoryError, w)
        | _ =>
            if encodable data then
              (Ok tt, set_root w (put (root w) c (File (Utf8 data))))
            else
              (Raise UnicodeEncodeError,
               set_root w (put (root w) c (File (Utf8 []))))
        end
    end.

(** [sys.stdout.write(data)]. *)
Definition stdout_write (data : str) : M unit :=
  fun w => (Ok tt, set_stdout w (stdout w ++ data)).

(** The names in a directory that match [*.md]. *)
Definition matches_md (name : str) : bool := endswith name (lit ".md").

(** [p.rglob("*.md")] below a node: the matching entries of a directory come
    first, then those of its subdirectories, in listing order. *)
Fixpoint rglob_node (n : node) (p : Path) : list Path :=
  match n with
  | File _ => []
  | Dir es =>
      map (child p) (filter matches_md (map fst es))
      ++ flat_map (fun kc => rglob_node (snd kc) (child p (fst kc))) es
  end.

Definition rglob (w : World) (p : Path) : list Path :=
  match stat w p with
  | Ok (Dir es) => rglob_node (Dir es) p
  | _ => []
  end.

(** [sorted(xs, key=key)]: the keys are computed first; the sort is stable
    and uses [<] on the keys only. *)
Section Sorted.
Variables A K : Type.
Variable ltb : K -> K -> bool.

Fixpoint insert (x : K * A) (l : list (K * A)) : list (K * A) :=
  match l with
  | [] => [x]
  | y :: l' => if ltb (fst x) (fst y) then x :: l else y :: insert x l'
  end.

Definition sort_keyed (l : list (K * A)) : list (K * A) :=
  fold_left (fun acc x => insert x acc) l [].

Fixpoint decorate (key : A -> result K) (xs : list A)
  : result (list (K * A)) :=
  match xs with
  | [] => Ok []
  | x :: xs' =>
      (k <- key x ;; rest <- decorate key xs' ;; Ok ((k, x) :: rest))%py
  end.

Definition sorted (key : A -> result K) (xs : list A) : result (list A) :=
  (kxs <- decorate key xs ;; Ok (map snd (sort_keyed kxs)))%py.
End Sorted.

(* ================================================================== *)
(** * The script *)
(* ================================================================== *)

(** [collect_markdown_files(docs_dir)]. *)
Definition collect_markdown_files (w : World) (docs_dir : Path)
  : result (list Path) :=
  sorted path_ltb
         (fun p => relative_to p docs_dir)
         (filter (is_file w) (rglob w docs_dir)).

Definition separator : str := [LF; LF] ++ lit "---" ++ [LF; LF].

(** The loop of [build_compilation]: [sections] grows by one per file. *)
Fixpoint build_sections (w : World) (repo_root : Path) (md_files : list Path)
         (sections : list str) : result (list str) :=
  match md_files with
  | [] => Ok sections
  | path :: rest =>
      (rel_path <- relative_to path repo_root ;;
       let header := lit "# File: " ++ path_str rel_path ++ [LF; LF] in
       content <- read_text w path ;;
       build_sections w repo_root rest
                      (sections ++ [header ++ rstrip content ++ [LF]]))%py
  end.

(** [build_compilation(md_files, repo_root)]. *)
Definition build_compilation (w : World) (md_files : list Path)
           (repo_root : Path) : result str :=
  (sections <- build_sections w repo_root md_files [] ;;
   Ok (join separator sections ++ [LF]))%py.

(** [write_output(compiled, destination)]. *)
Definition write_output (compiled : str) (destination : option Path)
  : M unit :=
  match destination with
  | None => stdout_write compiled
  | Some dest =>
      (mkdir_p (parent dest) ;;; write_text dest compiled)%py
  end.

(** [parse_args()], on the optional positional argument: what
    [args.output] is.  What [argparse] does on its own before [main] has
    the arguments (usage errors, [--help]) is outside the model. *)
Definition parse_args (argument : option str) : str :=
  match argument with
  | Some s => s
  | None => lit "-"
  end.

(** [None if args.output == "-" else Path(args.output)]. *)
Definition destination_of (output : str) : option Path :=
  if Str.eqb output (lit "-") then None else Some (parse_path output).

(** [main()].  [script] is [Path(__file__).resolve()]. *)
Definition main (script : Path) (argument : option str) : M unit :=
  (let output := parse_args argument in
   repo_root <~ reads (fun _ => parents_nth script 1) ;;
   let docs_dir := truediv (truediv repo_root (lit "docs"))
                           (lit "10_language") in
   fun w =>
     if negb (exists_ w docs_dir) then
       (Raise (SystemExit (lit "Missing docs directory: "
                             ++ path_str docs_dir)), w)
     else
       (md_files <~ reads (fun w => collect_markdown_files w docs_dir) ;;
        match md_files with
        | [] => raise (SystemExit (lit "No markdown files found under "
                                     ++ path_str docs_dir))
        | _ :: _ =>
            compiled <~ reads (fun w =>
                                 build_compilation w md_files repo_root) ;;
            let destination := destination_of output in
            write_output compiled destination
        end) w)%py.

(** The exit status of the process for the outcome of [main]: an exception
    that is not caught, [SystemExit] with a message included, gives 1. *)
Definition exit_status (r : result unit) : N :=
  match r with
  | Ok _ => 0%N
  | Raise _ => 1%N
  end.

(** What the interpreter prints on standard error for [SystemExit]. *)
Definition diagnostic (r : result unit) : option str :=
  match r with
  | Raise (SystemExit msg) => Some msg
  | _ => None
  end.

(* ================================================================== *)
(** * Vocabulary of the specification *)
(* ================================================================== *)

Unset Implicit Arguments.

(** [t] is [content] with its trailing whitespace stripped: what is cut is
    whitespace, and what is left does not end in whitespace. *)
Definition trimmed (content t : str) : Prop :=
  (exists ws, content = t ++ ws /\ Forall (fun c => isspace c = true) ws)
  /\ (forall t' c, t = t' ++ [c] -> isspace c = false).

(** The section of one file, in the words of the specification: the heading
    line, a blank line, the trimmed content, one newline. *)
Inductive sections_of (w : World) (repo_root : Path)
  : list Path -> list str -> Prop :=
| sections_nil : sections_of w repo_root [] []
| sections_cons path rest rel content t ss :
    relative_to path repo_root = Ok rel ->
    read_text w path = Ok content ->
    trimmed content t ->
    sections_of w repo_root rest ss ->
    sections_of w repo_root (path :: rest)
      ((lit "# File: " ++ path_str rel ++ [LF] ++ [LF] ++ t ++ [LF]) :: ss).

(** The file can go into a compilation: it lies beneath the root and reads
    as UTF-8 text. *)
Definition compilable (w : World) (repo_root : Path) (p : Path) : Prop :=
  (exists rel, relative_to p repo_root = Ok rel)
  /\ (exists content, read_text w p = Ok content).


(** A well-formed directory tree: the names in a directory are distinct,
    and a name is not empty, not [.] or [..], and has no [/]. *)
Definition valid_name (k : str) : bool :=
  negb (Str.eqb k []) && negb (Str.eqb k (lit "."))
  && negb (Str.eqb k (lit "..")) && negb (existsb (N.eqb SLASH) k).

Fixpoint distinct (l : list str) : bool :=
  match l with
  | [] => true
  | x :: r => negb (existsb (Str.eqb x) r) && distinct r
  end.

Fixpoint wf_node (n : node) : bool :=
  match n with
  | File _ => true
  | Dir es =>
      distinct (map fst es)
      && forallb (fun kc => valid_name (fst kc) && wf_node (snd kc)) es
  end.

Definition wf (w : World) : Prop := wf_node (Dir (root w)) = true.

(** The path [rel] beneath [p]. *)
Definition under (p : Path) (rel : list str) : Path :=
  mkPath (anchor_of p) (parts p ++ rel).

(** [p] is a regular file at or beneath [docs_dir] whose name matches
    [*.md]: [docs_dir] is a directory, and the names [rel] lead from it to a
    regular file. *)
Definition md_file_under (w : World) (docs_dir p : Path) : Prop :=
  exists es rel d,
    stat w docs_dir = Ok (Dir es)
    /\ lookup es rel = Some (File d)
    /\ p = under docs_dir rel
    /\ matches_md (last rel []) = true.

(** What is left of [p] after the segments of [docs_dir]. *)
Definition rel_of (docs_dir p : Path) : Path :=
  mkPath Relative (skipn (List.length (parts docs_dir)) (parts p)).

(** The order a stable sort by [ltb] on keys leaves: no later key is below
    an earlier one. *)
Definition key_le {A K : Type} (ltb : K -> K -> bool) (a b : K * A) : Prop :=
  ltb (fst b) (fst a) = false.

(** Induction on a tree, with the entries of a directory as premises. *)
Section NodeInduction.
Variable P : node -> Prop.
Hypothesis HFile : forall d, P (File d).
Hypothesis HDir : forall es, Forall (fun kc => P (snd kc)) es -> P (Dir es).

Fixpoint node_induction (n : node) : P n :=
  match n with
  | File d => HFile d
  | Dir es =>
      HDir es ((fix go (l : dirents) : Forall (fun kc => P (snd kc)) l :=
               match l with
               | [] => Forall_nil _
               | kc :: l' => Forall_cons kc (node_induction (snd kc)) (go l')
               end) es)
  end.
End NodeInduction.

(** [p] comes before [q] by their paths relative to [docs_dir]. *)
Definition rel_lt (docs_dir p q : Path) : Prop :=
  exists rp rq,
    relative_to p docs_dir = Ok rp
    /\ relative_to q docs_dir = Ok rq
    /\ path_ltb rp rq = true.

(** The paths [rglob_node] yields, relative to where it starts. *)
Fixpoint rels (n : node) : list (list str) :=
  match n with
  | File _ => []
  | Dir es =>
      map (fun k => [k]) (filter matches_md (map fst es))
      ++ flat_map (fun kc => map (cons (fst kc)) (rels (snd kc))) es
  end.

(** A segment that is a name, not [..]. *)
Definition plain (s : str) : Prop := Str.eqb s (lit "..") = false.

(** What a list of names leads to. *)
Inductive kind : Type :=
| Missing
| IsFile (d : filedata)
| IsDir.

Definition kind_of (o : option node) : kind :=
  match o with
  | None => Missing
  | Some (File d) => IsFile d
  | Some (Dir _) => IsDir
  end.

Definition kind_at (es : dirents) (c : list str) : kind :=
  kind_of (lookup es c).

(** [w'] has the directories of [w], and the same working directory. *)
Definition extends (w w' : World) : Prop :=
  cwd w' = cwd w
  /\ forall q, kind_at (root w) q = IsDir -> kind_at (root w') q = IsDir.

(** A node without entries below it. *)
Definition leaf (n : node) : Prop :=
  match n with
  | File _ => True
  | Dir es => es = []
  end.

(** [c] is the place, from [st], of a prefix of the segments [q]. *)
Definition on_chain (st q c : list str) : Prop :=
  exists pre post, q = pre ++ post /\ c = st ++ pre.

(** The documentation root [main] derives from the repository root. *)
Definition docs_dir_of (repo_root : Path) : Path :=
  truediv (truediv repo_root (lit "docs")) (lit "10_language").

(** The lines of the output that have the form of a heading. *)
Definition heading_prefix : str := lit "# File: ".

Definition is_heading (line : str) : bool := startswith line heading_prefix.

Definition heading_lines (out : str) : list str :=
  filter is_heading (split LF out).

(* ================================================================== *)
(** * Example worlds *)
(* ================================================================== *)

Module Example.

Definition repo : Path := mkPath Root [lit "repo"].

Definition script : Path :=
  mkPath Root [lit "repo"; lit "bin"; lit "compile_language_docs.py"].

Definition docs : Path :=
  mkPath Root [lit "repo"; lit "docs"; lit "10_language"].

Definition bin_dir : str * node :=
  (lit "bin", Dir [(lit "compile_language_docs.py", File (Utf8 []))]).

(** A repository whose documentation root holds [entries]. *)
Definition world_with (entries : dirents) : World :=
  mkWorld
    [(lit "repo",
      Dir [(lit "docs", Dir [(lit "10_language", Dir entries)]); bin_dir])]
    [lit "repo"]
    [].

(** The scenario of the specification: [a/one.md] holds [Hello] and three
    newlines, [b/two.md] holds [World]. *)
Definition hello : str := lit "Hello" ++ [LF; LF; LF].

Definition scenario_entries : dirents :=
  [(lit "a", Dir [(lit "one.md", File (Utf8 hello))]);
   (lit "b", Dir [(lit "two.md", File (Utf8 (lit "World")))])].

Definition scenario : World := world_with scenario_entries.

Definition one_md : Path := under docs [lit "a"; lit "one.md"].
Definition two_md : Path := under docs [lit "b"; lit "two.md"].

(** The output the specification gives for the scenario, character by
    character: one empty line between [Hello] and [---]. *)
Definition scenario_output_claimed : str :=
  lit "# File: a/one.md" ++ [LF; LF] ++ lit "Hello" ++ [LF; LF]
  ++ lit "---" ++ [LF; LF]
  ++ lit "# File: b/two.md" ++ [LF; LF] ++ lit "World" ++ [LF]
  ++ [LF].

(** The output with the documentation root as reference root, and the
    output of a run, with the paths taken from the repository root: the
    newline that closes the first section comes before the blank line of
    the separator. *)
Definition scenario_output_from_docs : str :=
  lit "# File: a/one.md" ++ [LF; LF] ++ lit "Hello" ++ [LF]
  ++ [LF; LF] ++ lit "---" ++ [LF; LF]
  ++ lit "# File: b/two.md" ++ [LF; LF] ++ lit "World" ++ [LF]
  ++ [LF].

Definition scenario_output : str :=
  lit "# File: docs/10_language/a/one.md" ++ [LF; LF] ++ lit "Hello" ++ [LF]
  ++ [LF; LF] ++ lit "---" ++ [LF; LF]
  ++ lit "# File: docs/10_language/b/two.md" ++ [LF; LF] ++ lit "World"
  ++ [LF]
  ++ [LF].

(** A documentation root with a directory named like a markdown file, a
    file that is not UTF-8 and no markdown file; and a repository without
    documentation root. *)
Definition no_markdown : World :=
  world_with [(lit "x.md", Dir []); (lit "notes.txt", File NotUtf8)].

Definition no_docs : World :=
  mkWorld [(lit "repo", Dir [bin_dir])] [lit "repo"] [].

(** A document that quotes a heading line. *)
Definition quoting : World :=
  world_with
    [(lit "x.md",
      File (Utf8 (lit "see" ++ [LF] ++ lit "# File: y.md" ++ [LF])))].

Definition x_md : Path := under docs [lit "x.md"].

(** A path beneath the root that is not there, and a path outside it. *)
Definition missing_md : Path := under docs [lit "missing.md"].
Definition outside_md : Path := mkPath Root [lit "elsewhere"; lit "x.md"].

(** Destinations, from the working directory [/repo]: a new file two
    directories down; a directory that exists; a path that comes back
    through [..] to a directory [mkdir] has made. *)
Definition out_md : Path := mkPath Relative [lit "out"; lit "all"; lit "c.md"].
Definition docs_dest : Path := mkPath Relative [lit "docs"].
Definition back_dest : Path := mkPath Relative [lit "x"; lit ".."; lit "x"].

End Example.

(* ================================================================== *)
(** * More vocabulary: what a run leaves of the tree *)
(* ================================================================== *)

(** From [w] to [w'] nothing has changed but directories that were not
    there: every place has the kind and the data it had, or was missing and
    is a directory. *)
Definition only_new_dirs (w w' : World) : Prop :=
  stdout w' = stdout w
  /\ cwd w' = cwd w
  /\ forall q, kind_at (root w') q = kind_at (root w) q
               \/ (kind_at (root w) q = Missing
                   /\ kind_at (root w') q = IsDir).

(** More example worlds. *)
(** From [w] to [w'] one file has been written, with [data], at the place
    [c]; elsewhere nothing has changed but directories that were not
    there. *)
Definition one_file_written (w w' : World) (c : list str) (data : str)
  : Prop :=
  kind_at (root w') c = IsFile (Utf8 data)
  /\ forall q, q <> c ->
               kind_at (root w') q = kind_at (root w) q
               \/ (kind_at (root w) q = Missing
                   /\ kind_at (root w') q = IsDir).

Module Sample.

(** A documentation root with a file that reads and one that is not
    UTF-8. *)
Definition broken : World :=
  Example.world_with
    [(lit "a.md", File (Utf8 (lit "fine")));
     (lit "b.md", File NotUtf8)].

Definition a_md : Path := under Example.docs [lit "a.md"].
Definition b_md : Path := under Example.docs [lit "b.md"].

(** A repository in which [docs/10_language] is a regular file. *)
Definition docs_is_file : World :=
  mkWorld
    [(lit "repo",
      Dir [(lit "docs", Dir [(lit "10_language", File (Utf8 (lit "x")))]);
           Example.bin_dir])]
    [lit "repo"]
    [].

(** The scenario with its two directories listed the other way round. *)
Definition scenario_reversed : World :=
  Example.world_with (rev Example.scenario_entries).

(** A markdown file of blanks, and one with the line ends of another
    system. *)
Definition blank : World :=
  Example.world_with
    [(lit "blank.md", File (Utf8 [32; LF; 9; LF]%N));
     (lit "dos.md", File (Utf8 (lit "one" ++ [CR; LF] ++ lit "two" ++ [CR])))].

Definition blank_md : Path := under Example.docs [lit "blank.md"].
Definition dos_md : Path := under Example.docs [lit "dos.md"].

(** A destination in the documentation root. *)
Definition all_md : Path := under Example.docs [lit "all.md"].

End Sample.

(** A path the file system can make: every segment is a valid name or
    [..]. *)
Definition nameable (p : Path) : Prop :=
  Forall (fun s => valid_name s = true \/ s = lit "..") (parts p).
(* ================================================================== *)
(** * Strings *)
(* ================================================================== *)

Lemma str_eqb_eq (a b : str) : Str.eqb a b = true <-> a = b.
Proof.
  revert b; induction a as [|x a IH]; intros [|y b]; simpl;
    try (split; [discriminate | discriminate]); try tauto.
  rewrite andb_true_iff, N.eqb_eq, IH.
  split; [intros [-> ->]; reflexivity | intros H; inversion H; auto].
Qed.

Lemma str_eqb_refl (a : str) : Str.eqb a a = true.
Proof. apply str_eqb_eq; reflexivity. Qed.

Lemma str_eqb_neq (a b : str) : Str.eqb a b = false <-> a <> b.
Proof.
  rewrite <- str_eqb_eq. destruct (Str.eqb a b); split; congruence.
Qed.

Lemma drop_space_split (s : str) :
  exists ws, s = ws ++ drop_space s
             /\ Forall (fun c => isspace c = true) ws.
Proof.
  induction s as [|c r [ws [E F]]]; simpl.
  - exists []; auto.
  - destruct (isspace c) eqn:Hc.
    + exists (c :: ws); split; [simpl; congruence | constructor; auto].
    + exists []; auto.
Qed.

Lemma drop_space_head (s : str) c r :
  drop_space s = c :: r -> isspace c = false.
Proof.
  induction s as [|d s IH]; simpl; [discriminate|].
  destruct (isspace d) eqn:Hd; auto.
  intros H; inversion H; subst; assumption.
Qed.

Lemma rstrip_trimmed (s : str) : trimmed s (rstrip s).
Proof.
  unfold trimmed, rstrip; split.
  - destruct (drop_space_split (rev s)) as [ws [E F]].
    exists (rev ws); split.
    + rewrite <- rev_app_distr, <- E, rev_involutive; reflexivity.
    + apply Forall_rev; assumption.
  - intros t' c E.
    apply (f_equal (@rev _)) in E.
    rewrite rev_involutive, rev_app_distr in E; simpl in E.
    eapply drop_space_head; eassumption.
Qed.

Lemma drop_space_all (ws s : str) :
  Forall (fun c => isspace c = true) ws ->
  drop_space (ws ++ s) = drop_space s.
Proof.
  induction 1 as [|c ws Hc _ IH]; simpl; [reflexivity|].
  rewrite Hc; assumption.
Qed.

(** Whitespace after the content does not show in the trimmed content. *)
Lemma rstrip_app_space (s ws : str) :
  Forall (fun c => isspace c = true) ws -> rstrip (s ++ ws) = rstrip s.
Proof.
  intros F; unfold rstrip.
  rewrite rev_app_distr, drop_space_all; [reflexivity|].
  apply Forall_rev; assumption.
Qed.

Lemma join_cons (sep x : str) (xs : list str) :
  xs <> [] -> join sep (x :: xs) = x ++ sep ++ join sep xs.
Proof. destruct xs; [congruence | reflexivity]. Qed.

(* ================================================================== *)
(** * build_compilation *)
(* ================================================================== *)

Lemma trimmed_unique (content t : str) :
  trimmed content t -> t = rstrip content.
Proof.
  intros [[ws [E F]] Hlast]; subst content.
  rewrite rstrip_app_space by assumption.
  destruct (rstrip_trimmed t) as [[ws' [E' F']] _].
  destruct ws' as [|c ws']; [rewrite app_nil_r in E'; assumption|].
  exfalso.
  destruct (exists_last (l := c :: ws')) as [u [d Eu]]; [discriminate|].
  rewrite Eu in E', F'.
  rewrite app_assoc in E'.
  apply Forall_app in F' as [_ F']; inversion F' as [|? ? Hd _]; subst.
  rewrite (Hlast _ _ E') in Hd; discriminate.
Qed.

Lemma build_sections_ok w repo_root md_files ss :
  sections_of w repo_root md_files ss ->
  forall acc, build_sections w repo_root md_files acc = Ok (acc ++ ss).
Proof.
  induction 1 as [|path rest rel content t ss Hrel Hread Ht _ IH];
    intros acc; simpl.
  - rewrite app_nil_r; reflexivity.
  - rewrite Hrel; simpl. rewrite Hread; simpl.
    rewrite IH, (trimmed_unique _ _ Ht), <- !app_assoc; reflexivity.
Qed.

Lemma sections_of_exist w repo_root md_files :
  Forall (compilable w repo_root) md_files ->
  exists ss, sections_of w repo_root md_files ss
             /\ List.length ss = List.length md_files.
Proof.
  induction 1 as [|p rest [[rel Hrel] [content Hread]] _ [ss [IH L]]].
  - exists []; split; [constructor | reflexivity].
  - eexists; split.
    + econstructor; eauto using rstrip_trimmed.
    + simpl; congruence.
Qed.

Lemma build_sections_app w repo_root pre post acc :
  build_sections w repo_root (pre ++ post) acc
  = (acc' <- build_sections w repo_root pre acc ;;
     build_sections w repo_root post acc')%py.
Proof.
  revert acc; induction pre as [|p pre IH]; intros acc; simpl;
    [reflexivity|].
  destruct (relative_to p repo_root); simpl; [|reflexivity].
  destruct (read_text w p); simpl; [|reflexivity].
  apply IH.
Qed.

Lemma relative_to_raises p other e :
  relative_to p other = Raise e -> e = ValueError.
Proof.
  unfold relative_to.
  destruct (anchor_eqb _ _); [destruct (strip_prefix _ _)|]; congruence.
Qed.

Lemma build_sections_same_reads w1 w2 repo_root md_files :
  (forall p, In p md_files -> read_text w1 p = read_text w2 p) ->
  forall acc, build_sections w1 repo_root md_files acc
              = build_sections w2 repo_root md_files acc.
Proof.
  induction md_files as [|p rest IH]; intros H acc; simpl; [reflexivity|].
  destruct (relative_to p repo_root); simpl; [|reflexivity].
  rewrite <- (H p) by (left; reflexivity).
  destruct (read_text w1 p); simpl; [|reflexivity].
  apply IH; intros q Hq; apply H; right; assumption.
Qed.

(* ================================================================== *)
(** * The tree: lookup and path resolution *)
(* ================================================================== *)

Lemma find_entry_In k es n : find_entry k es = Some n -> In (k, n) es.
Proof.
  induction es as [|[k' m] es IH]; simpl; [discriminate|].
  destruct (Str.eqb k' k) eqn:E.
  - apply str_eqb_eq in E; subst; intros H; inversion H; auto.
  - auto.
Qed.

Lemma lookup_app es a b :
  lookup es (a ++ b)
  = match lookup es a with
    | Some (Dir sub) => lookup sub b
    | Some (File d) => match b with [] => Some (File d) | _ :: _ => None end
    | None => None
    end.
Proof.
  revert es; induction a as [|s a IH]; intros es; simpl.
  - reflexivity.
  - destruct (find_entry s es) as [[d|sub]|]; auto.
    destruct a; simpl; [destruct b|]; reflexivity.
Qed.

Lemma lookup_prefix_dir es q r n :
  lookup es (q ++ r) = Some n -> r <> [] ->
  exists d, lookup es q = Some (Dir d).
Proof.
  rewrite lookup_app.
  destruct (lookup es q) as [[d|sub]|]; try discriminate.
  - destruct r; [congruence | discriminate].
  - eauto.
Qed.

Lemma lookup_removelast es c n :
  lookup es c = Some n -> exists d, lookup es (removelast c) = Some (Dir d).
Proof.
  destruct c as [|s c] using rev_ind; intros H.
  - simpl; eauto.
  - rewrite removelast_last.
    eapply lookup_prefix_dir; [eassumption | discriminate].
Qed.

Lemma namei_app es cur a b :
  namei es cur (a ++ b) = (c <- namei es cur a ;; namei es c b)%py.
Proof.
  revert cur; induction a as [|s a IH]; intros cur; simpl; [reflexivity|].
  destruct (lookup es cur) as [[d|sub]|]; auto.
Qed.

Lemma step_plain cur s : plain s -> step cur s = cur ++ [s].
Proof. unfold step, plain; intros ->; reflexivity. Qed.

Lemma namei_plain es cur segs c :
  Forall plain segs -> namei es cur segs = Ok c -> c = cur ++ segs.
Proof.
  intros F; revert cur; induction F as [|s segs Hs _ IH]; intros cur; simpl.
  - rewrite app_nil_r; congruence.
  - destruct (lookup es cur) as [[d|sub]|]; try discriminate.
    rewrite step_plain by assumption.
    intros H; apply IH in H; rewrite H, <- app_assoc; reflexivity.
Qed.

(** Names that lead somewhere from a directory resolve to themselves. *)
Lemma namei_lookup es cur sub rel n :
  lookup es cur = Some (Dir sub) ->
  lookup sub rel = Some n ->
  Forall plain rel ->
  namei es cur rel = Ok (cur ++ rel).
Proof.
  intros Hcur Hrel F; revert cur sub Hcur Hrel.
  induction F as [|s rel Hs _ IH]; intros cur sub Hcur Hrel; simpl.
  - rewrite app_nil_r; reflexivity.
  - rewrite Hcur, step_plain by assumption.
    destruct rel as [|s' rel].
    + reflexivity.
    + simpl in Hrel.
      destruct (find_entry s sub) as [[d|sub']|] eqn:E; try discriminate.
      replace (cur ++ s :: s' :: rel) with ((cur ++ [s]) ++ s' :: rel)
        by (rewrite <- app_assoc; reflexivity).
      apply IH with (sub := sub'); [|assumption].
      rewrite lookup_app, Hcur; simpl; rewrite E; reflexivity.
Qed.

Lemma valid_name_plain k : valid_name k = true -> plain k.
Proof.
  unfold valid_name, plain.
  rewrite !andb_true_iff, !negb_true_iff; tauto.
Qed.

Lemma wf_find k es n :
  wf_node (Dir es) = true -> find_entry k es = Some n ->
  valid_name k = true /\ wf_node n = true.
Proof.
  simpl; rewrite andb_true_iff, forallb_forall; intros [_ H] E.
  apply find_entry_In in E; apply H in E; simpl in E.
  apply andb_true_iff in E; assumption.
Qed.

Lemma wf_lookup_names es c n :
  wf_node (Dir es) = true -> lookup es c = Some n ->
  wf_node n = true /\ Forall (fun k => valid_name k = true) c.
Proof.
  revert es; induction c as [|s c IH]; intros es W; simpl.
  - intros H; inversion H; subst; auto.
  - destruct (find_entry s es) as [[d|sub]|] eqn:E; try discriminate;
      destruct (wf_find _ _ _ W E) as [Hs Wn].
    + destruct c; [|discriminate].
      intros H; inversion H; subst; split; [reflexivity|].
      constructor; auto.
    + intros H; destruct (IH _ Wn H); split; [assumption|].
      constructor; auto.
Qed.

Lemma wf_lookup es c n :
  wf_node (Dir es) = true -> lookup es c = Some n ->
  wf_node n = true /\ Forall plain c.
Proof.
  intros W H; destruct (wf_lookup_names _ _ _ W H) as [Wn F].
  split; [assumption|].
  eapply Forall_impl; [|exact F]; apply valid_name_plain.
Qed.

Lemma distinct_find k n es :
  distinct (map fst es) = true -> In (k, n) es -> find_entry k es = Some n.
Proof.
  induction es as [|[k' m] es IH]; simpl; [tauto|].
  rewrite andb_true_iff, negb_true_iff; intros [Hk D] [H|H].
  - inversion H; subst; rewrite str_eqb_refl; reflexivity.
  - destruct (Str.eqb k' k) eqn:E; [|auto].
    apply str_eqb_eq in E; subst k'.
    exfalso.
    assert (existsb (Str.eqb k) (map fst es) = true); [|congruence].
    apply existsb_exists; exists k; split; [|apply str_eqb_refl].
    apply in_map_iff; exists (k, n); auto.
Qed.

(** ** stat *)

Lemma stat_inv w p n :
  stat w p = Ok n ->
  exists c, resolve w p = Ok c /\ lookup (root w) c = Some n.
Proof.
  unfold stat; destruct (resolve w p) as [c|]; simpl; [|discriminate].
  destruct (lookup (root w) c) eqn:E; [|discriminate].
  intros H; inversion H; subst; exists c; auto.
Qed.

Lemma stat_intro w p c n :
  resolve w p = Ok c -> lookup (root w) c = Some n -> stat w p = Ok n.
Proof. unfold stat; intros -> ; simpl; intros ->; reflexivity. Qed.

Lemma resolve_under w p rel c :
  resolve w p = Ok c ->
  resolve w (under p rel)
  = namei (root w) c rel.
Proof.
  unfold resolve; simpl.
  destruct (lookup (root w) (start w (anchor_of p))) as [[d|sub]|];
    try discriminate.
  rewrite namei_app; intros ->; reflexivity.
Qed.

Lemma stat_under w docs es rel n :
  stat w docs = Ok (Dir es) ->
  lookup es rel = Some n ->
  Forall plain rel ->
  stat w (under docs rel) = Ok n.
Proof.
  intros Hd Hrel F.
  destruct (stat_inv _ _ _ Hd) as [c [Hc Hl]].
  eapply stat_intro.
  - rewrite (resolve_under _ _ _ _ Hc); eapply namei_lookup; eassumption.
  - rewrite lookup_app, Hl; assumption.
Qed.

Lemma stat_under_inv w docs es rel n :
  stat w docs = Ok (Dir es) ->
  Forall plain rel ->
  stat w (under docs rel) = Ok n ->
  lookup es rel = Some n.
Proof.
  intros Hd F Hs.
  destruct (stat_inv _ _ _ Hd) as [c [Hc Hl]].
  destruct (stat_inv _ _ _ Hs) as [c' [Hc' Hl']].
  rewrite (resolve_under _ _ _ _ Hc) in Hc'.
  apply namei_plain in Hc'; [|assumption]; subst c'.
  rewrite lookup_app, Hl in Hl'; assumption.
Qed.

(** ** rglob *)

Lemma rglob_node_rels n p :
  rglob_node n p
  = map (fun rel => under p rel) (rels n).
Proof.
  revert p; induction n as [d|es IH] using node_induction; intros p; simpl.
  - reflexivity.
  - rewrite map_app, !map_map; f_equal.
    induction IH as [|[k c] es Hc _ IHes]; simpl; [reflexivity|].
    rewrite map_app, map_map, IHes; f_equal.
    rewrite Hc; simpl.
    apply map_ext; intros rel; unfold under, child; simpl.
    rewrite <- app_assoc; reflexivity.
Qed.

Lemma rels_shape n rel :
  In rel (rels n) -> rel <> [] /\ matches_md (last rel []) = true.
Proof.
  revert rel; induction n as [d|es IH] using node_induction; intros rel;
    simpl; [tauto|].
  rewrite in_app_iff, in_map_iff, in_flat_map.
  intros [[k [<- Hk]]|[[k c] [Hin Hrel]]].
  - apply filter_In in Hk; split; [discriminate | tauto].
  - simpl in Hrel; apply in_map_iff in Hrel as [r [<- Hr]].
    rewrite Forall_forall in IH; apply (IH _ Hin) in Hr as [Hne Hm].
    split; [discriminate|].
    destruct r; [congruence | exact Hm].
Qed.

Lemma rels_complete es rel m :
  lookup es rel = Some m -> rel <> [] ->
  matches_md (last rel []) = true -> In rel (rels (Dir es)).
Proof.
  revert es m; induction rel as [|s rel IH]; intros es m; [congruence|].
  simpl lookup; intros H _ Hm.
  destruct (find_entry s es) as [n|] eqn:E; [|discriminate].
  apply find_entry_In in E.
  simpl rels; apply in_app_iff.
  destruct rel as [|s' rel].
  - left; apply in_map_iff; exists s; split; [reflexivity|].
    apply filter_In; split; [|exact Hm].
    apply in_map_iff; exists (s, n); auto.
  - right; apply in_flat_map; exists (s, n); split; [assumption|].
    simpl; apply in_map.
    destruct n as [d|sub]; [discriminate|].
    eapply IH; [eassumption | discriminate | exact Hm].
Qed.

Lemma wf_entry es k c :
  wf_node (Dir es) = true -> In (k, c) es ->
  find_entry k es = Some c /\ wf_node c = true.
Proof.
  intros W Hin; simpl in W; apply andb_true_iff in W as [D F].
  split; [apply distinct_find; assumption|].
  rewrite forallb_forall in F; apply F in Hin; simpl in Hin.
  apply andb_true_iff in Hin; tauto.
Qed.

Lemma rels_sound n :
  wf_node n = true ->
  forall rel, In rel (rels n) ->
  exists es m, n = Dir es /\ lookup es rel = Some m.
Proof.
  induction n as [d|es IH] using node_induction; intros W rel; simpl;
    [tauto|].
  rewrite Forall_forall in IH.
  rewrite in_app_iff, in_map_iff, in_flat_map.
  intros [[k [<- Hk]]|[[k c] [Hin Hrel]]]; exists es.
  - apply filter_In in Hk as [Hk _].
    apply in_map_iff in Hk as [[k' c] [<- Hin]].
    destruct (wf_entry _ _ _ W Hin) as [E _]; simpl in E |- *.
    rewrite E; destruct c; eauto.
  - simpl in Hrel; apply in_map_iff in Hrel as [r [<- Hr]].
    destruct (wf_entry _ _ _ W Hin) as [E Wc].
    destruct (IH _ Hin Wc _ Hr) as [sub [m [Ec Hm]]]; simpl in Ec; subst c.
    exists m; split; [reflexivity|].
    simpl; rewrite E; assumption.
Qed.

Lemma NoDup_map_inj {A B} (f : A -> B) (l : list A) :
  (forall x y, f x = f y -> x = y) -> NoDup l -> NoDup (map f l).
Proof.
  intros Hinj; apply NoDup_map_NoDup_ForallPairs.
  intros x y _ _; apply Hinj.
Qed.

Lemma distinct_NoDup l : distinct l = true -> NoDup l.
Proof.
  induction l as [|x l IH]; simpl; [constructor|].
  rewrite andb_true_iff, negb_true_iff; intros [Hx D].
  constructor; [|auto].
  intros Hin.
  assert (existsb (Str.eqb x) l = true); [|congruence].
  apply existsb_exists; exists x; split; [assumption | apply str_eqb_refl].
Qed.

Lemma rels_NoDup n : wf_node n = true -> NoDup (rels n).
Proof.
  induction n as [d|es IH] using node_induction; intros W; simpl;
    [constructor|].
  rewrite Forall_forall in IH.
  assert (Hsub : forall k c, In (k, c) es -> NoDup (rels c)).
  { intros k c Hin; apply (IH _ Hin), (wf_entry _ _ _ W Hin). }
  simpl in W; apply andb_true_iff in W as [D _].
  apply distinct_NoDup in D.
  apply NoDup_app.
  - apply NoDup_map_inj; [intros x y H; inversion H; reflexivity|].
    apply NoDup_filter; assumption.
  - clear IH; induction es as [|[k c] es IHes]; simpl; [constructor|].
    inversion D as [|? ? Hk D']; subst.
    apply NoDup_app.
    + apply NoDup_map_inj; [intros x y H; inversion H; reflexivity|].
      apply (Hsub k c); left; reflexivity.
    + apply IHes; [assumption|].
      intros k' c' Hin; apply (Hsub k' c'); right; assumption.
    + intros rel H1 H2.
      apply in_map_iff in H1 as [r [<- _]].
      apply in_flat_map in H2 as [[k' c'] [Hin H2]].
      apply in_map_iff in H2 as [r' [H2 _]]; simpl in H2.
      inversion H2; subst.
      apply Hk; simpl; apply in_map_iff; exists (k, c'); auto.
  - intros rel H1 H2.
    apply in_map_iff in H1 as [k [<- _]].
    apply in_flat_map in H2 as [[k' c'] [Hin H2]].
    apply in_map_iff in H2 as [r' [H2 Hr]]; simpl in H2.
    inversion H2; subst.
    apply rels_shape in Hr; tauto.
Qed.

(* ================================================================== *)
(** * Ordering and sorting *)
(* ================================================================== *)

Section LexOrder.
Variable A : Type.
Variable cmp : A -> A -> comparison.
Hypothesis cmp_eq : forall x y, cmp x y = Eq <-> x = y.
Hypothesis cmp_antisym : forall x y, cmp y x = CompOpp (cmp x y).
Hypothesis cmp_trans :
  forall x y z, cmp x y = Lt -> cmp y z = Lt -> cmp x z = Lt.

Lemma lex_eq a b : lex cmp a b = Eq <-> a = b.
Proof.
  revert b; induction a as [|x a IH]; intros [|y b]; simpl;
    try (split; discriminate); [tauto|].
  destruct (cmp x y) eqn:E.
  - apply cmp_eq in E; subst y; rewrite IH.
    split; [congruence | intros H; inversion H; reflexivity].
  - split; [discriminate|].
    intros H; inversion H; subst.
    assert (cmp y y = Eq) by (apply cmp_eq; reflexivity); congruence.
  - split; [discriminate|].
    intros H; inversion H; subst.
    assert (cmp y y = Eq) by (apply cmp_eq; reflexivity); congruence.
Qed.

Lemma lex_antisym a b : lex cmp b a = CompOpp (lex cmp a b).
Proof.
  revert b; induction a as [|x a IH]; intros [|y b]; simpl; auto.
  rewrite (cmp_antisym x y).
  destruct (cmp x y); simpl; auto.
Qed.

Lemma lex_trans a b c :
  lex cmp a b = Lt -> lex cmp b c = Lt -> lex cmp a c = Lt.
Proof.
  revert b c; induction a as [|x a IH]; intros [|y b] [|z c]; simpl;
    try discriminate; auto.
  destruct (cmp x y) eqn:Exy; try discriminate.
  - apply cmp_eq in Exy; subst y.
    destruct (cmp x z); try discriminate; eauto.
  - intros _.
    destruct (cmp y z) eqn:Eyz; try discriminate.
    + apply cmp_eq in Eyz; subst z; rewrite Exy; reflexivity.
    + rewrite (cmp_trans _ _ _ Exy Eyz); reflexivity.
Qed.
End LexOrder.

Lemma N_compare_trans x y z :
  N.compare x y = Lt -> N.compare y z = Lt -> N.compare x z = Lt.
Proof. rewrite !N.compare_lt_iff; apply N.lt_trans. Qed.

Lemma str_compare_eq a b : Str.compare a b = Eq <-> a = b.
Proof. apply lex_eq, N.compare_eq_iff. Qed.

Lemma str_compare_antisym a b :
  Str.compare b a = CompOpp (Str.compare a b).
Proof. apply lex_antisym; intros; apply N.compare_antisym. Qed.

Lemma str_compare_trans a b c :
  Str.compare a b = Lt -> Str.compare b c = Lt -> Str.compare a c = Lt.
Proof.
  apply lex_trans;
    [apply N.compare_eq_iff | apply N_compare_trans].
Qed.

Lemma segs_compare_eq a b : lex Str.compare a b = Eq <-> a = b.
Proof. apply lex_eq, str_compare_eq. Qed.

Lemma segs_compare_antisym a b :
  lex Str.compare b a = CompOpp (lex Str.compare a b).
Proof. apply lex_antisym, str_compare_antisym. Qed.

Lemma segs_compare_trans a b c :
  lex Str.compare a b = Lt -> lex Str.compare b c = Lt ->
  lex Str.compare a c = Lt.
Proof. apply lex_trans; [apply str_compare_eq | apply str_compare_trans]. Qed.

Lemma path_ltb_asym p q : path_ltb p q = true -> path_ltb q p = false.
Proof.
  unfold path_ltb, path_compare.
  rewrite (segs_compare_antisym (cparts p) (cparts q)).
  destruct (lex Str.compare (cparts p) (cparts q)); simpl; congruence.
Qed.

Lemma path_ltb_trans p q r :
  path_ltb p q = true -> path_ltb q r = true -> path_ltb p r = true.
Proof.
  unfold path_ltb, path_compare; intros H1 H2.
  destruct (lex Str.compare (cparts p) (cparts q)) eqn:E1; try discriminate.
  destruct (lex Str.compare (cparts q) (cparts r)) eqn:E2; try discriminate.
  rewrite (segs_compare_trans _ _ _ E1 E2); reflexivity.
Qed.

(** Two relative paths that differ are ordered one way or the other. *)
Lemma path_ltb_total a b :
  a <> b -> path_ltb (mkPath Relative b) (mkPath Relative a) = false ->
  path_ltb (mkPath Relative a) (mkPath Relative b) = true.
Proof.
  unfold path_ltb, path_compare, cparts; cbn [anchor_of parts]; intros Hne.
  rewrite (segs_compare_antisym a b).
  destruct (lex Str.compare a b) eqn:E; simpl; try congruence.
  apply segs_compare_eq in E; contradiction.
Qed.

Section SortFacts.
Variables A K : Type.
Variable ltb : K -> K -> bool.
Hypothesis ltb_asym : forall x y, ltb x y = true -> ltb y x = false.

Lemma insert_perm (x : K * A) l : Permutation (insert ltb x l) (x :: l).
Proof.
  induction l as [|y l IH]; simpl; [reflexivity|].
  destruct (ltb (fst x) (fst y)); [reflexivity|].
  rewrite IH; apply perm_swap.
Qed.

Lemma sort_keyed_perm (l : list (K * A)) : Permutation (sort_keyed ltb l) l.
Proof.
  unfold sort_keyed.
  enough (forall acc, Permutation (fold_left (fun acc x => insert ltb x acc)
                                             l acc) (acc ++ l)) as H
      by apply (H []).
  induction l as [|x l IH]; intros acc; simpl.
  - rewrite app_nil_r; reflexivity.
  - rewrite IH, insert_perm.
    apply Permutation_middle.
Qed.

Lemma insert_sorted (x : K * A) l :
  Sorted (key_le ltb) l -> Sorted (key_le ltb) (insert ltb x l).
Proof.
  induction 1 as [|y l Hl IH Hy]; simpl.
  - repeat constructor.
  - destruct (ltb (fst x) (fst y)) eqn:E.
    + constructor; [constructor; assumption|].
      constructor; unfold key_le; auto.
    + constructor; [assumption|].
      destruct l as [|z l]; simpl.
      * constructor; exact E.
      * destruct (ltb (fst x) (fst z)).
        -- constructor; exact E.
        -- inversion Hy; subst; constructor; assumption.
Qed.

Lemma sort_keyed_sorted (l : list (K * A)) :
  Sorted (key_le ltb) (sort_keyed ltb l).
Proof.
  unfold sort_keyed.
  enough (forall acc, Sorted (key_le ltb) acc ->
                      Sorted (key_le ltb)
                        (fold_left (fun acc x => insert ltb x acc) l acc))
    as H by (apply H; constructor).
  induction l as [|x l IH]; intros acc Hacc; simpl; auto using insert_sorted.
Qed.

Lemma decorate_total (key : A -> result K) (k : A -> K) xs :
  (forall x, In x xs -> key x = Ok (k x)) ->
  decorate key xs = Ok (map (fun x => (k x, x)) xs).
Proof.
  induction xs as [|x xs IH]; intros H; simpl; [reflexivity|].
  rewrite (H x) by (left; reflexivity); simpl.
  rewrite IH by (intros y Hy; apply H; right; assumption).
  reflexivity.
Qed.

Lemma sorted_total (key : A -> result K) (k : A -> K) xs :
  (forall x, In x xs -> key x = Ok (k x)) ->
  exists sl,
    sorted ltb key xs = Ok (map snd sl)
    /\ Permutation sl (map (fun x => (k x, x)) xs)
    /\ Sorted (key_le ltb) sl.
Proof.
  intros H; unfold sorted; rewrite (decorate_total key k xs H); simpl.
  eexists; split; [reflexivity|].
  split; [apply sort_keyed_perm | apply sort_keyed_sorted].
Qed.
End SortFacts.

(* ================================================================== *)
(** * collect_markdown_files *)
(* ================================================================== *)

Lemma anchor_eqb_refl a : anchor_eqb a a = true.
Proof. destruct a; reflexivity. Qed.

Lemma strip_prefix_app pre xs : strip_prefix pre (pre ++ xs) = Some xs.
Proof.
  induction pre as [|y pre IH]; simpl; [reflexivity|].
  rewrite str_eqb_refl; assumption.
Qed.

Lemma relative_to_under docs rel :
  relative_to (under docs rel) docs = Ok (mkPath Relative rel).
Proof.
  unfold relative_to, under; simpl.
  rewrite anchor_eqb_refl, strip_prefix_app; reflexivity.
Qed.

Lemma rel_of_under docs rel :
  rel_of docs (under docs rel) = mkPath Relative rel.
Proof.
  unfold rel_of, under; simpl.
  rewrite skipn_app, skipn_all, Nat.sub_diag; reflexivity.
Qed.

Lemma under_inj docs r1 r2 : under docs r1 = under docs r2 -> r1 = r2.
Proof.
  unfold under; intros H; inversion H as [E].
  eapply app_inv_head; eassumption.
Qed.

Lemma rglob_In w docs p :
  In p (rglob w docs) <->
  exists es rel, stat w docs = Ok (Dir es)
                 /\ In rel (rels (Dir es)) /\ p = under docs rel.
Proof.
  unfold rglob.
  destruct (stat w docs) as [[d|es]|e].
  - split; [intros [] | intros [es [rel [H _]]]; discriminate].
  - rewrite rglob_node_rels, in_map_iff; split.
    + intros [rel [<- Hrel]]; eauto.
    + intros [es' [rel [H [Hrel ->]]]]; inversion H; subst; eauto.
  - split; [intros [] | intros [es [rel [H _]]]; discriminate].
Qed.

Lemma stat_wf w p n : wf w -> stat w p = Ok n -> wf_node n = true.
Proof.
  intros W H; destruct (stat_inv _ _ _ H) as [c [_ Hl]].
  eapply wf_lookup; eassumption.
Qed.

Lemma is_file_stat w p :
  is_file w p = true <-> exists d, stat w p = Ok (File d).
Proof.
  unfold is_file; destruct (stat w p) as [[d|es]|e]; split;
    try discriminate; eauto; intros [d' H]; discriminate.
Qed.

(** With well-formed names, what the generator of [collect_markdown_files]
    lets through is the set of regular files the contract speaks of. *)
Lemma collected_iff w docs p :
  wf w ->
  In p (filter (is_file w) (rglob w docs)) <-> md_file_under w docs p.
Proof.
  intros W; rewrite filter_In, rglob_In, is_file_stat; split.
  - intros [[es [rel [Hd [Hrel ->]]]] [d Hf]].
    pose proof (stat_wf _ _ _ W Hd) as Wd.
    destruct (rels_sound _ Wd _ Hrel) as [es' [m [E Hm]]].
    inversion E; subst es'.
    destruct (wf_lookup _ _ _ Wd Hm) as [_ Hplain].
    apply (stat_under_inv _ _ _ _ _ Hd Hplain) in Hf.
    exists es, rel, d; repeat split; auto.
    apply rels_shape in Hrel; tauto.
  - intros [es [rel [d [Hd [Hl [-> Hm]]]]]].
    pose proof (stat_wf _ _ _ W Hd) as Wd.
    destruct (wf_lookup _ _ _ Wd Hl) as [_ Hplain].
    split.
    + exists es, rel; repeat split; auto.
      eapply rels_complete; eauto.
      intros ->; discriminate.
    + exists d; eapply stat_under; eassumption.
Qed.

(** The result is always a list: the generator's items in key order. *)
Lemma collect_total w docs :
  exists l,
    collect_markdown_files w docs = Ok l
    /\ Permutation l (filter (is_file w) (rglob w docs))
    /\ Sorted (fun p q => path_ltb (rel_of docs q) (rel_of docs p) = false) l.
Proof.
  unfold collect_markdown_files.
  set (l0 := filter (is_file w) (rglob w docs)).
  assert (Hkey : forall x, In x l0 ->
                           relative_to x docs = Ok (rel_of docs x)).
  { intros x Hx; apply filter_In in Hx as [Hx _].
    apply rglob_In in Hx as [es [rel [_ [_ ->]]]].
    rewrite rel_of_under; apply relative_to_under. }
  destruct (sorted_total _ _ path_ltb path_ltb_asym _ (rel_of docs) l0 Hkey)
    as [sl [E [P S]]].
  exists (map snd sl); split; [exact E|]; split.
  - rewrite P, map_map; simpl; rewrite map_id; reflexivity.
  - assert (Hfst : forall pr, In pr sl -> fst pr = rel_of docs (snd pr)).
    { intros pr Hin; eapply Permutation_in in Hin; [|exact P].
      apply in_map_iff in Hin as [x [<- _]]; reflexivity. }
    clear E P; induction S as [|a sl Hs IH Ha]; simpl; constructor.
    + apply IH; intros pr Hin; apply Hfst; right; assumption.
    + destruct Ha as [|b sl Hab]; simpl; constructor.
      unfold key_le in Hab.
      rewrite <- (Hfst a), <- (Hfst b) by (simpl; auto); exact Hab.
Qed.

Lemma rel_lt_trans docs p q r :
  rel_lt docs p q -> rel_lt docs q r -> rel_lt docs p r.
Proof.
  intros [rp [rq [Hp [Hq H1]]]] [rq' [rr [Hq' [Hr H2]]]].
  rewrite Hq in Hq'; inversion Hq'; subst rq'.
  exists rp, rr; repeat split; auto.
  eapply path_ltb_trans; eassumption.
Qed.

Lemma collect_spec w docs :
  wf w ->
  exists l,
    collect_markdown_files w docs = Ok l
    /\ NoDup l
    /\ (forall p, In p l <-> md_file_under w docs p)
    /\ StronglySorted (rel_lt docs) l.
Proof.
  intros W.
  destruct (collect_total w docs) as [l [E [P S]]].
  assert (Hshape : forall p, In p l -> exists rel, p = under docs rel).
  { intros p Hp; eapply Permutation_in in Hp; [|exact P].
    apply filter_In in Hp as [Hp _].
    apply rglob_In in Hp as [es [rel [_ [_ ->]]]]; eauto. }
  assert (N : NoDup l).
  { eapply Permutation_NoDup; [symmetry; exact P|].
    apply NoDup_filter.
    unfold rglob; destruct (stat w docs) as [[d|es]|e] eqn:Hd;
      try constructor.
    rewrite rglob_node_rels.
    apply NoDup_map_inj; [apply under_inj|].
    apply rels_NoDup; eapply stat_wf; eassumption. }
  exists l; split; [exact E|]; split; [exact N|]; split.
  - intros p; rewrite <- collected_iff by assumption.
    split; intros H; eapply Permutation_in; try eassumption.
    symmetry; assumption.
  - apply Sorted_StronglySorted; [intros p q r; apply rel_lt_trans|].
    clear E P; induction S as [|a l Hs IH Ha]; constructor.
    + apply IH; [intros p Hp; apply Hshape; right; assumption|].
      inversion N; assumption.
    + destruct Ha as [|b l Hab]; constructor.
      destruct (Hshape a) as [ra ->]; [left; reflexivity|].
      destruct (Hshape b) as [rb ->]; [right; left; reflexivity|].
      exists (mkPath Relative ra), (mkPath Relative rb).
      rewrite !relative_to_under; repeat split.
      rewrite !rel_of_under in Hab.
      apply path_ltb_total; [|exact Hab].
      intros ->; inversion N as [|? ? Hn _]; apply Hn; left; reflexivity.
Qed.

(* ================================================================== *)
(** * The tree: updates *)
(* ================================================================== *)

Lemma find_alter_same f k es :
  (forall n, f (Some n) <> None) ->
  find_entry k (alter f k es) = f (find_entry k es).
Proof.
  intros Hf; induction es as [|[k' n] es IH]; simpl.
  - destruct (f None); simpl; [rewrite str_eqb_refl|]; reflexivity.
  - destruct (Str.eqb k' k) eqn:E; simpl.
    + destruct (f (Some n)) eqn:Ef; [|destruct (Hf _ Ef)].
      simpl; rewrite E; reflexivity.
    + rewrite E; assumption.
Qed.

Lemma find_alter_other f k k' es :
  (forall n, f (Some n) <> None) -> k' <> k ->
  find_entry k' (alter f k es) = find_entry k' es.
Proof.
  intros Hf Hk; induction es as [|[k'' n] es IH]; simpl.
  - destruct (f None); simpl; [|reflexivity].
    apply str_eqb_neq in Hk.
    destruct (Str.eqb k k') eqn:E; [|reflexivity].
    apply str_eqb_eq in E; subst; rewrite str_eqb_refl in Hk; discriminate.
  - destruct (Str.eqb k'' k) eqn:E; simpl.
    + apply str_eqb_eq in E; subst k''.
      destruct (f (Some n)) eqn:Ef; [|destruct (Hf _ Ef)].
      simpl.
      destruct (Str.eqb k k') eqn:E'; [|reflexivity].
      apply str_eqb_eq in E'; congruence.
    + destruct (Str.eqb k'' k'); [reflexivity | assumption].
Qed.

Lemma alter_id f k es n :
  find_entry k es = Some n -> f (Some n) = Some n -> alter f k es = es.
Proof.
  intros Hfind Hf; induction es as [|[k' m] es IH]; simpl in *;
    [discriminate|].
  destruct (Str.eqb k' k).
  - inversion Hfind; subst; rewrite Hf; reflexivity.
  - rewrite IH by assumption; reflexivity.
Qed.

Lemma put_entry_keeps rest new enter n :
  put_entry rest new enter (Some n) <> None.
Proof. destruct rest; [|destruct n]; discriminate. Qed.

Lemma put_entry_enter rest new enter sub :
  rest <> [] ->
  put_entry rest new enter (Some (Dir sub)) = Some (Dir (enter sub)).
Proof. destruct rest; [congruence | reflexivity]. Qed.

Lemma lookup_put_same es q s new :
  (exists d, lookup es q = Some (Dir d)) ->
  lookup (put es (q ++ [s]) new) (q ++ [s]) = Some new.
Proof.
  revert es; induction q as [|t q IH]; intros es [d Hq]; simpl.
  - rewrite find_alter_same by (intros n; apply put_entry_keeps).
    destruct new; reflexivity.
  - simpl in Hq.
    rewrite find_alter_same by (intros n; apply put_entry_keeps).
    destruct (find_entry t es) as [[fd|sub]|]; try discriminate.
    + destruct q; discriminate.
    + rewrite put_entry_enter by (destruct q; discriminate).
      apply IH; eauto.
Qed.

Lemma put_same_file es c d :
  lookup es c = Some (File d) -> put es c (File d) = es.
Proof.
  revert es; induction c as [|s c IH]; intros es; simpl; [reflexivity|].
  destruct (find_entry s es) as [[fd|sub]|] eqn:E; try discriminate.
  - destruct c; [|discriminate].
    intros H; inversion H; subst.
    eapply alter_id; [eassumption | reflexivity].
  - intros H.
    eapply alter_id; [eassumption|].
    destruct c as [|s' c]; [discriminate|].
    rewrite put_entry_enter, (IH sub H) by discriminate; reflexivity.
Qed.

(** Putting a leaf where there was no directory changes no other place. *)
Lemma kind_put_other es c new q :
  leaf new -> kind_at es c <> IsDir -> q <> c ->
  kind_at (put es c new) q = kind_at es q.
Proof.
  intros Hleaf; revert es q; induction c as [|s c IH]; intros es q Hc Hq;
    [reflexivity|].
  destruct q as [|t q]; [reflexivity|].
  unfold kind_at in *; simpl in *.
  destruct (Str.eqb t s) eqn:Ets.
  - apply str_eqb_eq in Ets; subst t.
    rewrite find_alter_same by (intros n; apply put_entry_keeps).
    unfold put_entry.
    destruct c as [|s' c].
    + assert (q <> []) by congruence.
      assert (Hnew : kind_of match new with
                             | File d => match q with
                                         | [] => Some (File d)
                                         | _ :: _ => None
                                         end
                             | Dir sub => lookup sub q
                             end = Missing).
      { destruct new as [d|sub]; simpl in Hleaf.
        - destruct q; [congruence | reflexivity].
        - subst sub; destruct q; [congruence | reflexivity]. }
      rewrite Hnew.
      destruct (find_entry s es) as [[fd|sub]|]; simpl in *; try congruence.
      destruct q; [congruence | reflexivity].
    + destruct (find_entry s es) as [[fd|sub]|]; try reflexivity.
      apply IH; [assumption | congruence].
  - apply str_eqb_neq in Ets.
    rewrite find_alter_other; [reflexivity | | assumption].
    intros n; apply put_entry_keeps.
Qed.

Lemma put_keeps_dirs es c new q :
  leaf new -> kind_at es c <> IsDir ->
  kind_at es q = IsDir -> kind_at (put es c new) q = IsDir.
Proof.
  intros Hleaf Hc Hq.
  rewrite kind_put_other; auto; congruence.
Qed.

Lemma kind_at_dir es q :
  kind_at es q = IsDir <-> exists d, lookup es q = Some (Dir d).
Proof.
  unfold kind_at; destruct (lookup es q) as [[d|sub]|]; simpl; split;
    try discriminate; eauto; intros [d' H]; discriminate.
Qed.

(** Resolution goes through directories only: it finds in a world with
    more directories what it found before. *)
Lemma namei_mono es es' cur segs c :
  (forall q, kind_at es q = IsDir -> kind_at es' q = IsDir) ->
  namei es cur segs = Ok c -> namei es' cur segs = Ok c.
Proof.
  intros Hext; revert cur; induction segs as [|s segs IH]; intros cur; simpl;
    [auto|].
  destruct (lookup es cur) as [[d|sub]|] eqn:E; try discriminate.
  assert (K : kind_at es' cur = IsDir)
    by (apply Hext; unfold kind_at; rewrite E; reflexivity).
  apply kind_at_dir in K as [d' ->]; apply IH.
Qed.

Lemma resolve_mono w w' p c :
  extends w w' -> resolve w p = Ok c -> resolve w' p = Ok c.
Proof.
  intros [Hcwd Hext]; unfold resolve, start; rewrite Hcwd.
  set (st := match anchor_of p with Relative => cwd w | _ => [] end).
  destruct (lookup (root w) st) as [[d|sub]|] eqn:E; try discriminate.
  assert (K : kind_at (root w') st = IsDir)
    by (apply Hext; unfold kind_at; rewrite E; reflexivity).
  apply kind_at_dir in K as [d' ->]; apply namei_mono; assumption.
Qed.

Lemma is_dir_iff w p :
  is_dir w p = true <->
  exists c, resolve w p = Ok c /\ kind_at (root w) c = IsDir.
Proof.
  unfold is_dir, stat, kind_at.
  destruct (resolve w p) as [c|e]; simpl.
  - split.
    + intros H; exists c; split; [reflexivity|].
      destruct (lookup (root w) c) as [[d|sub]|]; try discriminate;
        reflexivity.
    + intros [c' [H K]]; inversion H; subst c'.
      destruct (lookup (root w) c) as [[d|sub]|]; try discriminate;
        reflexivity.
  - split; [discriminate | intros [c [H _]]; discriminate].
Qed.

Lemma is_dir_mono w w' p :
  extends w w' -> is_dir w p = true -> is_dir w' p = true.
Proof.
  intros Hext; rewrite !is_dir_iff; intros [c [Hc K]].
  exists c; split; [eapply resolve_mono; eassumption|].
  apply Hext; assumption.
Qed.

Lemma extends_refl w : extends w w.
Proof. split; auto. Qed.

Lemma extends_trans w1 w2 w3 :
  extends w1 w2 -> extends w2 w3 -> extends w1 w3.
Proof.
  intros [C1 H1] [C2 H2]; split; [congruence | auto].
Qed.

Lemma extends_put w c new :
  leaf new -> kind_at (root w) c <> IsDir ->
  extends w (set_root w (put (root w) c new)).
Proof.
  intros Hleaf Hc; split; [reflexivity|].
  intros q; apply put_keeps_dirs; assumption.
Qed.

Lemma step_cases es cur s :
  kind_at es cur = IsDir ->
  kind_at es (step cur s) = IsDir \/ step cur s = cur ++ [s].
Proof.
  intros K; unfold step; destruct (Str.eqb s (lit "..")); [left | auto].
  apply kind_at_dir in K as [d K]; apply kind_at_dir.
  eapply lookup_removelast; eassumption.
Qed.

(** Where resolution ends: at a directory, or at a name in a directory. *)
Lemma namei_target es segs :
  forall cur c,
    kind_at es cur = IsDir ->
    namei es cur segs = Ok c ->
    kind_at es c = IsDir
    \/ exists q s, c = q ++ [s] /\ kind_at es q = IsDir.
Proof.
  induction segs as [|s segs IH]; intros cur c K; simpl.
  - intros H; inversion H; subst; auto.
  - destruct (proj1 (kind_at_dir _ _) K) as [d ->].
    destruct (kind_at es (step cur s)) eqn:K';
      try (destruct segs as [|s' segs]; simpl;
           [ intros H; inversion H; subst;
             destruct (step_cases es cur s K) as [K''|E];
             [ left; assumption | right; eauto ]
           | unfold kind_at in K';
             destruct (lookup es (step cur s)) as [[fd|sub]|];
             discriminate ]).
    apply IH; assumption.
Qed.

Lemma namei_raises es cur segs e :
  namei es cur segs = Raise e ->
  e = FileNotFoundError \/ e = NotADirectoryError.
Proof.
  revert cur; induction segs as [|s segs IH]; intros cur; simpl;
    [discriminate|].
  destruct (lookup es cur) as [[d|sub]|]; eauto;
    intros H; inversion H; auto.
Qed.

(** ** Resolution in a world *)

Lemma resolve_raises w p e :
  resolve w p = Raise e ->
  e = FileNotFoundError \/ e = NotADirectoryError.
Proof.
  unfold resolve.
  destruct (lookup (root w) (start w (anchor_of p))) as [[d|sub]|];
    try (intros H; inversion H; auto; fail).
  apply namei_raises.
Qed.

Lemma resolve_target w p c :
  resolve w p = Ok c ->
  kind_at (root w) c = IsDir
  \/ exists q s, c = q ++ [s] /\ kind_at (root w) q = IsDir.
Proof.
  unfold resolve.
  destruct (lookup (root w) (start w (anchor_of p))) as [[d|sub]|] eqn:E;
    try discriminate.
  apply namei_target; apply kind_at_dir; eauto.
Qed.

(** A path with one more segment resolves exactly when the path before it
    is a directory. *)
Lemma resolve_snoc w a q s :
  (exists c, resolve w (mkPath a (q ++ [s])) = Ok c)
  <-> is_dir w (mkPath a q) = true.
Proof.
  rewrite is_dir_iff; unfold resolve; simpl.
  destruct (lookup (root w) (start w a)) as [[d|sub]|];
    try (split; intros [c H]; [discriminate | destruct H; discriminate]).
  rewrite namei_app.
  destruct (namei (root w) (start w a) q) as [c0|e]; simpl.
  - unfold kind_at.
    destruct (lookup (root w) c0) as [[fd|sub']|] eqn:E; split;
      try (intros [c H]; discriminate);
      try (intros [c [H K]]; inversion H; subst c; rewrite E in K;
           discriminate).
    + intros _; exists c0; rewrite E; auto.
    + eauto.
  - split; [intros [c H]; discriminate | intros [c [H _]]; discriminate].
Qed.

Lemma not_resolved_not_dir w p e : resolve w p = Raise e -> is_dir w p = false.
Proof. unfold is_dir, stat; intros ->; reflexivity. Qed.

(** ** os.mkdir *)

Lemma os_mkdir_cases p w :
  (exists w', os_mkdir p w = (Ok tt, w')
              /\ extends w w' /\ stdout w' = stdout w
              /\ is_dir w' p = true
              /\ exists c, resolve w p = Ok c
                           /\ forall c', c' <> c ->
                                         kind_at (root w') c'
                                         = kind_at (root w) c')
  \/ (os_mkdir p w = (Raise FileExistsError, w)
      /\ exists c, resolve w p = Ok c /\ kind_at (root w) c <> Missing)
  \/ (exists e, os_mkdir p w = (Raise e, w) /\ resolve w p = Raise e).
Proof.
  unfold os_mkdir.
  destruct (resolve w p) as [c|e] eqn:R; [|right; right; eauto].
  destruct (lookup (root w) c) as [n|] eqn:L.
  { right; left; split; [reflexivity|]; exists c; split; [reflexivity|].
    unfold kind_at; rewrite L; destruct n; discriminate. }
  left; eexists; split; [reflexivity|].
  assert (K : kind_at (root w) c <> IsDir)
    by (unfold kind_at; rewrite L; discriminate).
  assert (Hext : extends w (set_root w (put (root w) c (Dir []))))
    by (apply extends_put; [reflexivity | assumption]).
  split; [assumption|]; split; [reflexivity|]; split.
  2:{ exists c; split; [reflexivity|].
      intros c' Hc'; apply kind_put_other; [reflexivity | assumption..]. }
  apply is_dir_iff; exists c; split; [eapply resolve_mono; eassumption|].
  destruct (resolve_target _ _ _ R) as [K'|[q [s [-> Kq]]]];
    [contradiction|].
  unfold kind_at; simpl.
  rewrite lookup_put_same by (apply kind_at_dir; assumption); reflexivity.
Qed.

Lemma os_mkdir_existing p w :
  is_dir w p = true -> os_mkdir p w = (Raise FileExistsError, w).
Proof.
  rewrite is_dir_iff; intros [c [R K]].
  unfold os_mkdir; rewrite R.
  apply kind_at_dir in K as [d ->]; reflexivity.
Qed.

(** ** Path.mkdir *)

Lemma mkdir_parents_nil a w :
  mkdir_parents a (rev []) w
  = match os_mkdir (mkPath a []) w with
    | (Ok tt, w') => (Ok tt, w')
    | (Raise FileNotFoundError, w') => (Raise FileNotFoundError, w')
    | (Raise e, w') =>
        if negb (is_dir w' (mkPath a [])) then (Raise e, w') else (Ok tt, w')
    end.
Proof. reflexivity. Qed.

Lemma mkdir_parents_snoc a q s w :
  mkdir_parents a (rev (q ++ [s])) w
  = match os_mkdir (mkPath a (q ++ [s])) w with
    | (Ok tt, w') => (Ok tt, w')
    | (Raise FileNotFoundError, w') =>
        (mkdir_parents a (rev q) ;;; mkdir_here true (mkPath a (q ++ [s])))%py
          w'
    | (Raise e, w') =>
        if negb (is_dir w' (mkPath a (q ++ [s]))) then (Raise e, w')
        else (Ok tt, w')
    end.
Proof.
  rewrite rev_unit; simpl; rewrite rev_involutive; reflexivity.
Qed.

Lemma mkdir_parents_existing a q w :
  is_dir w (mkPath a q) = true -> mkdir_parents a (rev q) w = (Ok tt, w).
Proof.
  intros H.
  destruct q as [|s q _] using rev_ind;
    [rewrite mkdir_parents_nil | rewrite mkdir_parents_snoc];
    rewrite (os_mkdir_existing _ _ H), H; reflexivity.
Qed.

Ltac split4 := split; [|split; [|split]].

Lemma mkdir_parents_same a q w r :
  mkdir_parents a (rev q) w = (r, w) ->
  (is_dir w (mkPath a q) = true <-> r = Ok tt) ->
  extends w w /\ stdout w = stdout w
  /\ (is_dir w (mkPath a q) = true <-> r = Ok tt)
  /\ snd (mkdir_parents a (rev q) w) = w.
Proof.
  intros H D; rewrite H; auto using extends_refl.
Qed.

(** What [mkdir(parents=True, exist_ok=True)] leaves: the directories that
    were there, the path as a directory exactly when it returns, and a
    world in which running it again changes nothing. *)
Lemma mkdir_parents_spec a q :
  forall w r w',
    mkdir_parents a (rev q) w = (r, w') ->
    extends w w' /\ stdout w' = stdout w
    /\ (is_dir w' (mkPath a q) = true <-> r = Ok tt)
    /\ snd (mkdir_parents a (rev q) w') = w'.
Proof.
  induction q as [|s q IH] using rev_ind; intros w r w' H;
    pose proof H as H0.
  - rewrite mkdir_parents_nil in H0.
    destruct (os_mkdir_cases (mkPath a []) w)
      as [[w1 [E [X [S [D _]]]]] | [[E _] | [e [E R]]]];
      rewrite E in H0.
    + inversion H0; subst; split4; auto; [split; congruence|].
      rewrite (mkdir_parents_existing _ _ _ D); reflexivity.
    + destruct (is_dir w (mkPath a [])) eqn:D; simpl in H0;
        inversion H0; subst; apply mkdir_parents_same; auto;
        split; congruence.
    + pose proof (not_resolved_not_dir _ _ _ R) as D.
      destruct (resolve_raises _ _ _ R); subst e; try rewrite D in H0;
        simpl in H0; inversion H0; subst; apply mkdir_parents_same; auto;
        split; congruence.
  - rewrite mkdir_parents_snoc in H0.
    destruct (os_mkdir_cases (mkPath a (q ++ [s])) w)
      as [[w1 [E [X [S [D _]]]]] | [[E _] | [e [E R]]]];
      rewrite E in H0.
    + inversion H0; subst; split4; auto; [split; congruence|].
      rewrite (mkdir_parents_existing _ _ _ D); reflexivity.
    + destruct (is_dir w (mkPath a (q ++ [s]))) eqn:D; simpl in H0;
        inversion H0; subst; apply mkdir_parents_same; auto;
        split; congruence.
    + pose proof (not_resolved_not_dir _ _ _ R) as D.
      destruct (resolve_raises _ _ _ R); subst e;
        [| rewrite D in H0; simpl in H0; inversion H0; subst;
           apply mkdir_parents_same; auto; split; congruence ].
      clear H; unfold bind in H0.
      destruct (mkdir_parents a (rev q) w) as [r1 w1] eqn:E1.
      destruct (IH _ _ _ E1) as [X1 [S1 [D1 I1]]].
      destruct r1 as [[]|e1].
      * (* the parent is there: the directory itself is made *)
        assert (Dpar : is_dir w1 (mkPath a q) = true) by (apply D1; auto).
        unfold mkdir_here in H0.
        destruct (os_mkdir_cases (mkPath a (q ++ [s])) w1)
          as [[w2 [E2 [X2 [S2 [D2 _]]]]] | [[E2 _] | [e2 [E2 R2]]]];
          rewrite E2 in H0.
        -- inversion H0; subst; split4.
           ++ eapply extends_trans; eassumption.
           ++ congruence.
           ++ split; congruence.
           ++ rewrite (mkdir_parents_existing _ _ _ D2); reflexivity.
        -- assert (Hsnd : snd (mkdir_parents a (rev (q ++ [s])) w1) = w1).
           { rewrite mkdir_parents_snoc, E2.
             destruct (is_dir w1 (mkPath a (q ++ [s]))); reflexivity. }
           destruct (is_dir w1 (mkPath a (q ++ [s]))) eqn:D2; simpl in H0;
             inversion H0; subst; split4; auto; try congruence;
             split; congruence.
        -- apply (resolve_snoc w1 a q s) in Dpar as [c Rc]; congruence.
      * (* the parent could not be made *)
        inversion H0; subst.
        assert (Dpar : is_dir w' (mkPath a q) = false).
        { apply not_true_is_false; intros Dp.
          apply D1 in Dp; discriminate. }
        assert (Hno : forall c, resolve w' (mkPath a (q ++ [s])) <> Ok c).
        { intros c Rc.
          assert (is_dir w' (mkPath a q) = true)
            by (apply (resolve_snoc w' a q s); eauto).
          congruence. }
        assert (D' : is_dir w' (mkPath a (q ++ [s])) = false).
        { apply not_true_is_false; intros Dp.
          apply is_dir_iff in Dp as [c [Rc _]]; destruct (Hno _ Rc). }
        split4; auto; [split; congruence|].
        rewrite mkdir_parents_snoc.
        destruct (os_mkdir_cases (mkPath a (q ++ [s])) w')
          as [[w2 [E2 [_ [_ [_ [c [Rc _]]]]]]]
             | [[E2 [c [Rc _]]] | [e2 [E2 R2]]]];
          try (destruct (Hno _ Rc)).
        rewrite E2.
        destruct (resolve_raises _ _ _ R2); subst e2;
          [| rewrite D'; reflexivity ].
        unfold bind.
        destruct (mkdir_parents a (rev q) w') as [r2 w2] eqn:E3.
        simpl in I1; subst w2.
        destruct (IH _ _ _ E3) as [_ [_ [D3 _]]].
        destruct r2 as [[]|e3]; [|reflexivity].
        rewrite (proj2 D3 eq_refl) in Dpar; discriminate.
Qed.

(* ================================================================== *)
(** * write_output *)
(* ================================================================== *)

Lemma set_root_same w : set_root w (root w) = w.
Proof. destruct w; reflexivity. Qed.

(** Either the file is opened, and then written or left empty, or the
    call raises before anything has changed. *)
Lemma write_text_cases p data w :
  (exists c, resolve w p = Ok c
             /\ kind_at (root w) c <> IsDir
             /\ write_text p data w
                = if encodable data then
                    (Ok tt, set_root w (put (root w) c (File (Utf8 data))))
                  else
                    (Raise UnicodeEncodeError,
                     set_root w (put (root w) c (File (Utf8 [])))))
  \/ (exists e, write_text p data w = (Raise e, w)
                /\ (resolve w p = Raise e
                    \/ exists c, resolve w p = Ok c
                                 /\ kind_at (root w) c = IsDir)).
Proof.
  unfold write_text.
  destruct (resolve w p) as [c|e] eqn:R; [|right; eauto].
  destruct (lookup (root w) c) as [[d|sub]|] eqn:L.
  - left; exists c; repeat split; auto.
    unfold kind_at; rewrite L; discriminate.
  - right; eexists; split; [reflexivity|].
    right; exists c; split; [reflexivity|].
    unfold kind_at; rewrite L; reflexivity.
  - left; exists c; repeat split; auto.
    unfold kind_at; rewrite L; discriminate.
Qed.

Lemma write_text_encodable p data w w' :
  write_text p data w = (Ok tt, w') -> encodable data = true.
Proof.
  intros H.
  destruct (write_text_cases p data w) as [[c [_ [_ E]]]|[e [E _]]];
    rewrite E in H; [|discriminate].
  destruct (encodable data); [reflexivity | discriminate].
Qed.

(** Text that does not encode leaves what writing the empty string
    leaves. *)
Lemma write_text_unencodable p data w :
  encodable data = false ->
  write_text p data w
  = match write_text p [] w with
    | (Ok _, w') => (Raise UnicodeEncodeError, w')
    | other => other
    end.
Proof.
  intros H; unfold write_text.
  destruct (resolve w p) as [c|e]; [|reflexivity].
  destruct (lookup (root w) c) as [[d|sub]|]; rewrite ?H; reflexivity.
Qed.

(** After a write that returned, the file holds the data and nothing else,
    the directories are the ones there were, and the same write again
    leaves the world as it is. *)
Lemma write_text_ok p data w w' :
  write_text p data w = (Ok tt, w') ->
  extends w w' /\ stdout w' = stdout w
  /\ stat w' p = Ok (File (Utf8 data))
  /\ write_text p data w' = (Ok tt, w')
  /\ exists c, resolve w p = Ok c
               /\ kind_at (root w) c <> IsDir
               /\ forall c', c' <> c ->
                             kind_at (root w') c' = kind_at (root w) c'.
Proof.
  intros H; pose proof (write_text_encodable _ _ _ _ H) as Enc.
  destruct (write_text_cases p data w) as [[c [R [K E]]]|[e [E _]]];
    rewrite E, ?Enc in H; inversion H; subst w'; clear H.
  assert (X : extends w (set_root w (put (root w) c (File (Utf8 data)))))
    by (apply extends_put; [exact I | assumption]).
  pose proof (resolve_mono _ _ _ _ X R) as R'.
  assert (L : lookup (put (root w) c (File (Utf8 data))) c
              = Some (File (Utf8 data))).
  { destruct (resolve_target _ _ _ R) as [K'|[q [s [-> Kq]]]];
      [contradiction|].
    apply lookup_put_same, kind_at_dir; assumption. }
  split; [assumption|]; split; [reflexivity|]; split; [|split].
  - eapply stat_intro; [eassumption | exact L].
  - unfold write_text; rewrite R'; simpl root; rewrite L, Enc.
    rewrite (put_same_file _ _ _ L).
    unfold set_root; reflexivity.
  - exists c; split; [assumption|]; split; [assumption|].
    intros c' Hc'; apply kind_put_other; [exact I | assumption..].
Qed.

(** A write that raises has changed nothing, unless it is the encoder
    that raised: then the file is there and empty. *)
Lemma write_text_raise p data w e w' :
  write_text p data w = (Raise e, w') ->
  w' = w
  \/ (e = UnicodeEncodeError /\ encodable data = false
      /\ write_text p [] w = (Ok tt, w')).
Proof.
  intros H.
  destruct (encodable data) eqn:Enc.
  - left.
    destruct (write_text_cases p data w) as [[c [_ [_ E]]]|[e' [E _]]];
      rewrite E, ?Enc in H; inversion H; reflexivity.
  - rewrite (write_text_unencodable _ _ _ Enc) in H.
    destruct (write_text p [] w) as [[[]|e0] w0] eqn:E0.
    + right; inversion H; subst; auto.
    + left.
      destruct (write_text_cases p [] w) as [[c [_ [_ E]]]|[e' [E _]]];
        rewrite E in E0; [discriminate|].
      inversion E0; subst e0 w0; inversion H; reflexivity.
Qed.

Lemma path_eta p : mkPath (anchor_of p) (parts p) = p.
Proof. destruct p; reflexivity. Qed.

Lemma mkdir_p_spec p w r w' :
  mkdir_p p w = (r, w') ->
  extends w w' /\ stdout w' = stdout w
  /\ (is_dir w' p = true <-> r = Ok tt)
  /\ snd (mkdir_p p w') = w'.
Proof.
  unfold mkdir_p; intros H.
  apply mkdir_parents_spec in H; rewrite path_eta in H; exact H.
Qed.

Lemma mkdir_p_existing p w : is_dir w p = true -> mkdir_p p w = (Ok tt, w).
Proof.
  unfold mkdir_p; intros H.
  apply mkdir_parents_existing; rewrite path_eta; exact H.
Qed.

(** A directory's ancestors are directories. *)
Lemma is_dir_parents_rev w a r :
  is_dir w (mkPath a (rev r)) = true ->
  forall x, In x (parents_rev a r) -> is_dir w x = true.
Proof.
  induction r as [|s r IH]; simpl; [tauto|].
  intros H.
  assert (Hpar : is_dir w (mkPath a (rev r)) = true).
  { apply (resolve_snoc w a (rev r) s).
    apply is_dir_iff in H as [c [R _]]; eauto. }
  intros x [<-|Hx]; auto.
Qed.

Lemma parents_of_parent p x :
  In x (parents p) -> x = parent p \/ In x (parents (parent p)).
Proof.
  unfold parents, parent; simpl.
  destruct (parts p) as [|s q _] using rev_ind; [intros []|].
  rewrite removelast_last, rev_unit; simpl; rewrite rev_involutive.
  intros [<-|H]; auto.
Qed.

Lemma is_dir_ancestors w p :
  is_dir w (parent p) = true ->
  forall x, In x (parents p) -> is_dir w x = true.
Proof.
  intros H x Hx.
  destruct (parents_of_parent _ _ Hx) as [->|Hx']; [assumption|].
  unfold parents in Hx'.
  eapply is_dir_parents_rev; [|exact Hx'].
  rewrite rev_involutive, path_eta; assumption.
Qed.

(** What a write to a destination leaves when it returns. *)
Lemma write_output_ok compiled dest w w' :
  write_output compiled (Some dest) w = (Ok tt, w') ->
  extends w w' /\ stdout w' = stdout w
  /\ (forall x, In x (parents dest) -> is_dir w' x = true)
  /\ stat w' dest = Ok (File (Utf8 compiled)).
Proof.
  unfold write_output, bind.
  destruct (mkdir_p (parent dest) w) as [[[]|e1] w1] eqn:E1;
    [|discriminate].
  destruct (mkdir_p_spec _ _ _ _ E1) as [X1 [S1 [D1 _]]].
  intros H; destruct (write_text_ok _ _ _ _ H) as [X2 [S2 [St _]]].
  split; [eapply extends_trans; eassumption|].
  split; [congruence|]; split; [|assumption].
  apply is_dir_ancestors.
  eapply is_dir_mono; [eassumption|]; apply D1; reflexivity.
Qed.

(** Writing again to the same destination changes nothing more. *)
Lemma write_output_again compiled dest w r w' :
  write_output compiled (Some dest) w = (r, w') ->
  exists r',
    write_output compiled (Some dest) w' = (r', w')
    /\ (r = Ok tt -> r' = Ok tt).
Proof.
  unfold write_output, bind.
  destruct (mkdir_p (parent dest) w) as [r1 w1] eqn:E1.
  destruct (mkdir_p_spec _ _ _ _ E1) as [X1 [S1 [D1 I1]]].
  destruct r1 as [[]|e1].
  - assert (Dpar : is_dir w1 (parent dest) = true) by (apply D1; auto).
    destruct (write_text dest compiled w1) as [[[]|e2] w2] eqn:E2;
      intros H; inversion H; subst r w'; clear H.
    + destruct (write_text_ok _ _ _ _ E2) as [X2 [_ [_ [E3 _]]]].
      rewrite (mkdir_p_existing _ _ (is_dir_mono _ _ _ X2 Dpar)), E3.
      eauto.
    + destruct (write_text_raise _ _ _ _ _ E2) as [->|[-> [Enc E0]]].
      * rewrite (mkdir_p_existing _ _ Dpar), E2.
        eexists; split; [reflexivity | discriminate].
      * destruct (write_text_ok _ _ _ _ E0) as [X2 [_ [_ [E3 _]]]].
        rewrite (mkdir_p_existing _ _ (is_dir_mono _ _ _ X2 Dpar)).
        rewrite (write_text_unencodable _ _ _ Enc), E3.
        eexists; split; [reflexivity | discriminate].
  - intros H; inversion H; subst r w'; clear H.
    destruct (mkdir_p (parent dest) w1) as [r2 w2] eqn:E2.
    simpl in I1; subst w2.
    destruct (mkdir_p_spec _ _ _ _ E2) as [_ [_ [D2 _]]].
    destruct r2 as [[]|e2].
    + rewrite (proj2 D2 eq_refl) in D1.
      assert (Raise e1 = Ok tt) by (apply D1; reflexivity); discriminate.
    + eexists; split; [reflexivity | discriminate].
Qed.

(** ** When the write goes through *)

Lemma start_dir w a :
  is_dir w (mkPath a []) = true <-> kind_at (root w) (start w a) = IsDir.
Proof.
  rewrite is_dir_iff; unfold resolve, kind_at; simpl.
  destruct (lookup (root w) (start w a)) as [[d|sub]|] eqn:E; split;
    try discriminate; try (intros [c [H _]]; discriminate).
  - reflexivity.
  - intros _; exists (start w a); rewrite E; auto.
Qed.

Lemma resolve_plain w a q c :
  Forall plain q -> resolve w (mkPath a q) = Ok c -> c = start w a ++ q.
Proof.
  unfold resolve; simpl; intros F.
  destruct (lookup (root w) (start w a)) as [[d|sub]|]; try discriminate.
  apply namei_plain; assumption.
Qed.

Lemma stat_plain w a q n :
  Forall plain q ->
  kind_at (root w) (start w a) = IsDir ->
  lookup (root w) (start w a ++ q) = Some n ->
  stat w (mkPath a q) = Ok n.
Proof.
  intros F K L.
  apply kind_at_dir in K as [sub K].
  eapply stat_intro; [|exact L].
  unfold resolve; simpl; rewrite K.
  rewrite lookup_app, K in L.
  eapply namei_lookup; eassumption.
Qed.

Lemma namei_plain_notdir es segs :
  Forall plain segs ->
  forall cur,
    (forall pre post d, segs = pre ++ post ->
                        kind_at es (cur ++ pre) <> IsFile d) ->
    namei es cur segs <> Raise NotADirectoryError.
Proof.
  induction 1 as [|s segs Hs _ IH]; intros cur Hk; simpl; [discriminate|].
  destruct (lookup es cur) as [[d|sub]|] eqn:E; [| |discriminate].
  - exfalso; apply (Hk [] (s :: segs) d eq_refl).
    rewrite app_nil_r; unfold kind_at; rewrite E; reflexivity.
  - rewrite step_plain by assumption; apply IH.
    intros pre post d -> .
    rewrite <- app_assoc; apply (Hk (s :: pre) post d); reflexivity.
Qed.

Lemma on_chain_snoc st q s c : on_chain st q c -> on_chain st (q ++ [s]) c.
Proof.
  intros [pre [post [-> ->]]]; exists pre, (post ++ [s]).
  rewrite app_assoc; auto.
Qed.

Lemma on_chain_full st q : on_chain st q (st ++ q).
Proof. exists q, []; rewrite app_nil_r; auto. Qed.

Lemma off_chain st q s : ~ on_chain st q (st ++ q ++ [s]).
Proof.
  intros [pre [post [Hq Hc]]].
  apply app_inv_head in Hc; subst pre.
  apply (f_equal (@List.length _)) in Hq.
  rewrite !length_app in Hq; simpl in Hq; lia.
Qed.

Lemma mkdir_parents_succeeds a q :
  Forall plain q ->
  forall w,
    kind_at (root w) (start w a) = IsDir ->
    (forall c d, on_chain (start w a) q c ->
                 kind_at (root w) c <> IsFile d) ->
    exists w',
      mkdir_parents a (rev q) w = (Ok tt, w')
      /\ forall c, ~ on_chain (start w a) q c ->
                   kind_at (root w') c = kind_at (root w) c.
Proof.
  induction q as [|s q IH] using rev_ind; intros F w Kst Hk.
  - exists w; split; [|reflexivity].
    apply mkdir_parents_existing, start_dir; assumption.
  - apply Forall_app in F as [Fq Fs].
    assert (Fqs : Forall plain (q ++ [s])) by (apply Forall_app; auto).
    assert (Hdir : forall w1 c,
               start w1 a = start w a ->
               resolve w1 (mkPath a (q ++ [s])) = Ok c ->
               kind_at (root w1) c <> Missing ->
               kind_at (root w1) c = kind_at (root w) c ->
               is_dir w1 (mkPath a (q ++ [s])) = true).
    { intros w1 c Hst R Kc Ksame.
      apply is_dir_iff; exists c; split; [assumption|].
      pose proof (resolve_plain _ _ _ _ Fqs R) as Ec.
      rewrite Hst in Ec.
      destruct (kind_at (root w1) c) eqn:Kw1; [congruence| |reflexivity].
      exfalso; symmetry in Ksame; revert Ksame; apply Hk.
      subst c; apply on_chain_full. }
    rewrite mkdir_parents_snoc.
    destruct (os_mkdir_cases (mkPath a (q ++ [s])) w)
      as [[w1 [E [_ [_ [_ [c [R Fr]]]]]]] | [[E [c [R Kc]]] | [e [E R]]]];
      rewrite E.
    + exists w1; split; [reflexivity|].
      intros c' Hc'; apply Fr; intros ->; apply Hc'.
      rewrite (resolve_plain _ _ _ _ Fqs R); apply on_chain_full.
    + rewrite (Hdir w c eq_refl R Kc eq_refl); simpl.
      exists w; split; reflexivity.
    + destruct (resolve_raises _ _ _ R); subst e.
      2:{ exfalso; revert R; unfold resolve; simpl.
          apply kind_at_dir in Kst as [sub ->].
          apply namei_plain_notdir; [assumption|].
          intros pre post d Hpp; apply Hk; exists pre, post; auto. }
      destruct (IH Fq w Kst) as [w1 [E1 Fr1]].
      { intros c d Hc; apply Hk, on_chain_snoc; assumption. }
      destruct (mkdir_parents_spec _ _ _ _ _ E1) as [[Hcwd X1] [_ [D1 _]]].
      assert (Hst : start w1 a = start w a)
        by (unfold start; rewrite Hcwd; reflexivity).
      assert (Dpar : is_dir w1 (mkPath a q) = true) by (apply D1; auto).
      unfold bind; rewrite E1; unfold mkdir_here.
      destruct (os_mkdir_cases (mkPath a (q ++ [s])) w1)
        as [[w2 [E2 [_ [_ [_ [c [R2 Fr2]]]]]]]
           | [[E2 [c [R2 Kc]]] | [e2 [E2 R2]]]];
        rewrite E2.
      * exists w2; split; [reflexivity|].
        intros c' Hc'.
        rewrite Fr2, Fr1; [reflexivity | |].
        -- intros Hq; apply Hc', on_chain_snoc; assumption.
        -- intros ->; apply Hc'.
           rewrite (resolve_plain _ _ _ _ Fqs R2), Hst; apply on_chain_full.
      * assert (Ksame : kind_at (root w1) c = kind_at (root w) c).
        { apply Fr1.
          rewrite (resolve_plain _ _ _ _ Fqs R2), Hst; apply off_chain. }
        rewrite (Hdir w1 c Hst R2 Kc Ksame); simpl.
        exists w1; split; [reflexivity|].
        intros c' Hc'; apply Fr1.
        intros Hq; apply Hc', on_chain_snoc; assumption.
      * apply (resolve_snoc w1 a q s) in Dpar as [c Rc]; congruence.
Qed.

Lemma parents_rev_In a r1 r2 :
  r1 <> [] -> In (mkPath a (rev r2)) (parents_rev a (r1 ++ r2)).
Proof.
  induction r1 as [|x r1 IH]; [congruence|]; intros _; simpl.
  destruct r1 as [|y r1]; [left; reflexivity|].
  right; apply IH; discriminate.
Qed.

Lemma parents_In a pre post :
  post <> [] -> In (mkPath a pre) (parents (mkPath a (pre ++ post))).
Proof.
  intros Hp; unfold parents; simpl.
  rewrite rev_app_distr, <- (rev_involutive pre) at 1.
  apply parents_rev_In.
  intros E; apply (f_equal (@rev _)) in E.
  rewrite rev_involutive in E; contradiction.
Qed.

(** In the file system of the model the write goes through when the text
    encodes, the segments of the destination are names, resolution has
    where to start, no ancestor is a regular file and the destination is
    not a directory. *)
Lemma write_output_succeeds compiled dest w :
  encodable compiled = true ->
  Forall plain (parts dest) ->
  is_dir w (mkPath (anchor_of dest) []) = true ->
  (forall x, In x (parents dest) -> is_file w x = false) ->
  is_dir w dest = false ->
  exists w', write_output compiled (Some dest) w = (Ok tt, w').
Proof.
  destruct dest as [a ps]; simpl; intros Enc F Hst Hanc Hdest.
  destruct ps as [|s q _] using rev_ind; [congruence|].
  apply start_dir in Hst.
  apply Forall_app in F as [Fq Fs].
  assert (Fqs : Forall plain (q ++ [s])) by (apply Forall_app; auto).
  destruct (mkdir_parents_succeeds a q Fq w Hst) as [w1 [E1 Fr1]].
  { intros c d [pre [post [-> ->]]] K.
    assert (is_file w (mkPath a pre) = true).
    { apply is_file_stat; exists d.
      apply Forall_app in Fq as [Fpre _].
      apply stat_plain; auto.
      unfold kind_at in K.
      destruct (lookup (root w) (start w a ++ pre)) as [[d'|sub]|];
        try discriminate.
      inversion K; reflexivity. }
    rewrite Hanc in H; [discriminate|].
    rewrite <- app_assoc; apply parents_In.
    destruct post; discriminate. }
  destruct (mkdir_parents_spec _ _ _ _ _ E1) as [[Hcwd X1] [_ [D1 _]]].
  assert (Dpar : is_dir w1 (mkPath a q) = true) by (apply D1; auto).
  unfold write_output, bind, mkdir_p, parent; simpl.
  rewrite removelast_last, E1.
  destruct (write_text_cases (mkPath a (q ++ [s])) compiled w1)
    as [[c [_ [_ E]]] | [e [E [R | [c [R K]]]]]].
  - rewrite Enc in E; eauto.
  - apply (resolve_snoc w1 a q s) in Dpar as [c Rc]; congruence.
  - exfalso.
    pose proof (resolve_plain _ _ _ _ Fqs R) as Ec.
    assert (Hs : start w1 a = start w a)
      by (unfold start; rewrite Hcwd; reflexivity).
    rewrite Hs in Ec; subst c.
    rewrite Fr1 in K by apply off_chain.
    apply kind_at_dir in K as [sub K].
    assert (is_dir w (mkPath a (q ++ [s])) = true); [|congruence].
    unfold is_dir.
    rewrite (stat_plain w a (q ++ [s]) (Dir sub) Fqs Hst K); reflexivity.
Qed.

(* ================================================================== *)
(** * main *)
(* ================================================================== *)

Lemma parents_nth_script a r d f :
  parents_nth (mkPath a (r ++ [d; f])) 1 = Ok (mkPath a r).
Proof.
  unfold parents_nth, parents; simpl.
  rewrite rev_app_distr; simpl; rewrite rev_involutive; reflexivity.
Qed.

Lemma docs_dir_of_under repo_root :
  docs_dir_of repo_root = under repo_root [lit "docs"; lit "10_language"].
Proof.
  unfold docs_dir_of, truediv, joinpath, under; simpl.
  rewrite <- app_assoc; reflexivity.
Qed.

(** [main] once the repository root is known. *)
Lemma main_unfold script argument w repo_root :
  parents_nth script 1 = Ok repo_root ->
  main script argument w
  = let docs_dir := docs_dir_of repo_root in
    if negb (exists_ w docs_dir) then
      (Raise (SystemExit (lit "Missing docs directory: "
                            ++ path_str docs_dir)), w)
    else
      match collect_markdown_files w docs_dir with
      | Raise e => (Raise e, w)
      | Ok [] =>
          (Raise (SystemExit (lit "No markdown files found under "
                                ++ path_str docs_dir)), w)
      | Ok (p :: l) =>
          match build_compilation w (p :: l) repo_root with
          | Raise e => (Raise e, w)
          | Ok compiled =>
              write_output compiled (destination_of (parse_args argument)) w
          end
      end.
Proof.
  intros H; unfold main, bind, reads; rewrite H; cbv beta iota zeta.
  fold (docs_dir_of repo_root).
  destruct (exists_ w (docs_dir_of repo_root)); [|reflexivity].
  cbv beta iota delta [negb].
  destruct (collect_markdown_files w (docs_dir_of repo_root)) as [[|p l]|e];
    reflexivity.
Qed.

Lemma main_missing_docs script argument w repo_root :
  parents_nth script 1 = Ok repo_root ->
  exists_ w (docs_dir_of repo_root) = false ->
  main script argument w
  = (Raise (SystemExit (lit "Missing docs directory: "
                          ++ path_str (docs_dir_of repo_root))), w).
Proof.
  intros H E; rewrite (main_unfold _ _ _ _ H); cbv zeta.
  rewrite E; reflexivity.
Qed.

Lemma main_no_files script argument w repo_root :
  parents_nth script 1 = Ok repo_root ->
  exists_ w (docs_dir_of repo_root) = true ->
  collect_markdown_files w (docs_dir_of repo_root) = Ok [] ->
  main script argument w
  = (Raise (SystemExit (lit "No markdown files found under "
                          ++ path_str (docs_dir_of repo_root))), w).
Proof.
  intros H E C; rewrite (main_unfold _ _ _ _ H); cbv zeta.
  rewrite E, C; reflexivity.
Qed.

Lemma build_sections_inv w repo_root md_files :
  forall acc out,
    build_sections w repo_root md_files acc = Ok out ->
    Forall (compilable w repo_root) md_files.
Proof.
  induction md_files as [|p rest IH]; intros acc out; simpl; [constructor|].
  destruct (relative_to p repo_root) as [rel|e] eqn:Hrel; simpl;
    [|discriminate].
  destruct (read_text w p) as [content|e] eqn:Hread; simpl; [|discriminate].
  intros H; constructor; [split; eauto | eapply IH; eassumption].
Qed.

Lemma under_under p q1 q2 : under (under p q1) q2 = under p (q1 ++ q2).
Proof. unfold under; simpl; rewrite app_assoc; reflexivity. Qed.

Lemma is_file_under w docs es rel d :
  stat w docs = Ok (Dir es) ->
  lookup es rel = Some (File d) ->
  Forall plain rel ->
  is_file w (under docs rel) = true.
Proof.
  intros Hd Hl F; unfold is_file.
  rewrite (stat_under _ _ _ _ _ Hd Hl F); reflexivity.
Qed.

Lemma read_text_under w docs es rel s :
  stat w docs = Ok (Dir es) ->
  lookup es rel = Some (File (Utf8 s)) ->
  Forall plain rel ->
  read_text w (under docs rel) = Ok (universal_newlines s).
Proof.
  intros Hd Hl F; unfold read_text.
  rewrite (stat_under _ _ _ _ _ Hd Hl F); reflexivity.
Qed.

Lemma exists_of_stat w p n : stat w p = Ok n -> exists_ w p = true.
Proof. unfold exists_; intros ->; reflexivity. Qed.

(** The scenario of the specification, whatever the listing order and
    wherever the repository is. *)
Lemma scenario_collect w docs es :
  stat w docs = Ok (Dir es) ->
  Permutation es Example.scenario_entries ->
  collect_markdown_files w docs
  = Ok [under docs [lit "a"; lit "one.md"];
        under docs [lit "b"; lit "two.md"]]
    /\ read_text w (under docs [lit "a"; lit "one.md"]) = Ok Example.hello
    /\ read_text w (under docs [lit "b"; lit "two.md"]) = Ok (lit "World").
Proof.
  intros Hd P.
  assert (F1 : Forall plain [lit "a"; lit "one.md"])
    by (repeat constructor).
  assert (F2 : Forall plain [lit "b"; lit "two.md"])
    by (repeat constructor).
  assert (Hes : es = Example.scenario_entries
                \/ es = rev Example.scenario_entries).
  { apply Permutation_sym, Permutation_length_2_inv in P.
    destruct P as [->| ->]; auto. }
  assert (L1 : lookup es [lit "a"; lit "one.md"]
               = Some (File (Utf8 Example.hello)))
    by (destruct Hes as [->| ->]; reflexivity).
  assert (L2 : lookup es [lit "b"; lit "two.md"]
               = Some (File (Utf8 (lit "World"))))
    by (destruct Hes as [->| ->]; reflexivity).
  split; [|split].
  - unfold collect_markdown_files, rglob; rewrite Hd, rglob_node_rels.
    pose proof (is_file_under _ _ _ _ _ Hd L1 F1) as I1.
    pose proof (is_file_under _ _ _ _ _ Hd L2 F2) as I2.
    pose proof (relative_to_under docs [lit "a"; lit "one.md"]) as R1.
    pose proof (relative_to_under docs [lit "b"; lit "two.md"]) as R2.
    set (p1 := under docs [lit "a"; lit "one.md"]) in *.
    set (p2 := under docs [lit "b"; lit "two.md"]) in *.
    destruct Hes as [->| ->].
    + change (rels (Dir Example.scenario_entries))
        with [[lit "a"; lit "one.md"]; [lit "b"; lit "two.md"]].
      cbn [map filter]; fold p1 p2; rewrite I1, I2.
      unfold sorted; cbn [decorate]; rewrite R1, R2; reflexivity.
    + change (rels (Dir (rev Example.scenario_entries)))
        with [[lit "b"; lit "two.md"]; [lit "a"; lit "one.md"]].
      cbn [map filter]; fold p1 p2; rewrite I1, I2.
      unfold sorted; cbn [decorate]; rewrite R1, R2; reflexivity.
  - rewrite (read_text_under _ _ _ _ _ Hd L1 F1); reflexivity.
  - rewrite (read_text_under _ _ _ _ _ Hd L2 F2); reflexivity.
Qed.

(* ================================================================== *)
(** * Lines and headings *)
(* ================================================================== *)

Lemma split_nonempty sep s : split sep s <> [].
Proof.
  destruct s as [|c r]; simpl; [discriminate|].
  destruct (N.eqb c sep); [discriminate|].
  destruct (split sep r); discriminate.
Qed.

(** The pieces of [a ++ b]: those of [a], the last of which runs on into
    the first of [b], then the rest of [b]. *)
Lemma split_app_shape sep a b :
  exists init lastA firstB restB,
    split sep a = init ++ [lastA]
    /\ split sep b = firstB :: restB
    /\ split sep (a ++ b) = init ++ (lastA ++ firstB) :: restB.
Proof.
  induction a as [|c a IH]; simpl.
  - destruct (split sep b) as [|firstB restB] eqn:E;
      [destruct (split_nonempty _ _ E)|].
    exists [], [], firstB, restB; auto.
  - destruct IH as [init [lastA [firstB [restB [Ha [Hb Hab]]]]]].
    rewrite Ha, Hab.
    destruct (N.eqb c sep).
    + exists ([] :: init), lastA, firstB, restB; auto.
    + destruct init as [|i init]; simpl.
      * exists [], (c :: lastA), firstB, restB; auto.
      * exists ((c :: i) :: init), lastA, firstB, restB; auto.
Qed.

Lemma split_app_sep sep a b :
  split sep (a ++ sep :: b) = split sep a ++ split sep b.
Proof.
  destruct (split_app_shape sep a (sep :: b))
    as [init [lastA [firstB [restB [Ha [Hb Hab]]]]]].
  simpl in Hb; rewrite N.eqb_refl in Hb; inversion Hb; subst.
  rewrite Hab, Ha, app_nil_r, <- app_assoc; reflexivity.
Qed.

Lemma split_nosep sep x : ~ In sep x -> split sep x = [x].
Proof.
  induction x as [|c x IH]; simpl; [reflexivity|]; intros H.
  destruct (N.eqb c sep) eqn:E; [apply N.eqb_eq in E; tauto|].
  rewrite IH by tauto; reflexivity.
Qed.

Lemma split_join sep l :
  l <> [] -> Forall (fun s => ~ In sep s) l ->
  split sep (join [sep] l) = l.
Proof.
  induction l as [|x l IH]; [congruence|]; intros _ F.
  inversion F as [|? ? Hx Hl]; subst.
  destruct l as [|y l]; [apply split_nosep; assumption|].
  change (join [sep] (x :: y :: l)) with (x ++ sep :: join [sep] (y :: l)).
  rewrite split_app_sep, split_nosep, IH by (auto; discriminate).
  reflexivity.
Qed.

Lemma startswith_app l x p :
  startswith l p = true -> startswith (l ++ x) p = true.
Proof.
  revert l; induction p as [|y p IH]; intros [|c l]; simpl; intros H;
    try reflexivity; try discriminate.
  apply andb_true_iff in H as [-> H]; simpl; auto.
Qed.

Lemma startswith_prefix p x : startswith (p ++ x) p = true.
Proof.
  induction p as [|y p IH]; simpl; [reflexivity|].
  rewrite N.eqb_refl; assumption.
Qed.

Lemma heading_lines_app a b :
  heading_lines (a ++ LF :: b) = heading_lines a ++ heading_lines b.
Proof.
  unfold heading_lines; rewrite split_app_sep, filter_app; reflexivity.
Qed.

Lemma heading_lines_prefix a b :
  heading_lines (a ++ b) = [] -> heading_lines a = [].
Proof.
  unfold heading_lines.
  destruct (split_app_shape LF a b)
    as [init [lastA [firstB [restB [Ha [Hb Hab]]]]]].
  rewrite Hab, Ha, !filter_app; simpl.
  intros H; apply app_eq_nil in H as [-> H].
  destruct (is_heading lastA) eqn:E; [|reflexivity].
  unfold is_heading in *.
  rewrite (startswith_app _ firstB _ E) in H; discriminate.
Qed.

Lemma heading_lines_heading x :
  ~ In LF x -> heading_lines (heading_prefix ++ x) = [heading_prefix ++ x].
Proof.
  intros H; unfold heading_lines.
  rewrite split_nosep.
  - cbn [filter]; unfold is_heading; rewrite startswith_prefix; reflexivity.
  - rewrite in_app_iff; intros [Hp|Hx]; [|auto].
    vm_compute in Hp; intuition discriminate.
Qed.

Lemma heading_lines_separator x :
  heading_lines (separator ++ x) = heading_lines x.
Proof.
  change (separator ++ x)
    with ([] ++ LF :: [] ++ LF :: lit "---" ++ LF :: [] ++ LF :: x).
  rewrite !heading_lines_app; reflexivity.
Qed.

(** The heading lines of a section followed by [x]: the heading of the
    section, then those of [x]. *)
Lemma heading_lines_section relstr t x :
  ~ In LF relstr -> heading_lines t = [] ->
  heading_lines ((lit "# File: " ++ relstr ++ [LF] ++ [LF] ++ t ++ [LF]) ++ x)
  = (heading_prefix ++ relstr) :: heading_lines x.
Proof.
  intros Hr Ht.
  replace ((lit "# File: " ++ relstr ++ [LF] ++ [LF] ++ t ++ [LF]) ++ x)
    with ((heading_prefix ++ relstr) ++ LF :: [] ++ LF :: t ++ LF :: x).
  - rewrite !heading_lines_app, heading_lines_heading, Ht by assumption.
    reflexivity.
  - unfold heading_prefix; rewrite <- !app_assoc; reflexivity.
Qed.

Lemma heading_lines_sections w repo_root md_files ss :
  sections_of w repo_root md_files ss ->
  (forall p content, In p md_files -> read_text w p = Ok content ->
                     heading_lines content = []) ->
  (forall p rel, In p md_files -> relative_to p repo_root = Ok rel ->
                 ~ In LF (path_str rel)) ->
  exists rels,
    Forall2 (fun p rel => relative_to p repo_root = Ok rel) md_files rels
    /\ heading_lines (join separator ss ++ [LF])
       = map (fun rel => heading_prefix ++ path_str rel) rels.
Proof.
  induction 1 as [|path rest rel content t ss Hrel Hread Ht Hs IH];
    intros Hc Hn.
  - exists []; split; [constructor | reflexivity].
  - destruct IH as [rels [F2 E]].
    { intros p c Hp; apply Hc; right; assumption. }
    { intros p r Hp; apply Hn; right; assumption. }
    exists (rel :: rels); split; [constructor; assumption|].
    assert (Hrelstr : ~ In LF (path_str rel))
      by (apply (Hn path); [left; reflexivity | assumption]).
    assert (Hlines : heading_lines t = []).
    { destruct Ht as [[ws [Ec _]] _].
      apply (heading_lines_prefix t ws); rewrite <- Ec.
      apply (Hc path); [left; reflexivity | assumption]. }
    cbn [map]; rewrite <- E.
    destruct ss as [|s ss].
    + cbn [join].
      rewrite (heading_lines_section _ _ [LF] Hrelstr Hlines); reflexivity.
    + rewrite join_cons by discriminate.
      set (sec := lit "# File: " ++ path_str rel ++ [LF] ++ [LF] ++ t ++ [LF]).
      set (more := join separator (s :: ss)).
      replace ((sec ++ separator ++ more) ++ [LF])
        with (sec ++ separator ++ more ++ [LF])
        by (rewrite <- !app_assoc; reflexivity).
      unfold sec.
      rewrite (heading_lines_section _ _ _ Hrelstr Hlines).
      rewrite heading_lines_separator; reflexivity.
Qed.

Lemma valid_name_noslash k : valid_name k = true -> ~ In SLASH k.
Proof.
  unfold valid_name; rewrite !andb_true_iff, !negb_true_iff.
  intros [_ H] Hin.
  assert (existsb (N.eqb SLASH) k = true); [|congruence].
  apply existsb_exists; exists SLASH; split; [assumption | reflexivity].
Qed.

(** The path shown for a file of the documentation root: its names after
    [docs/10_language]. *)
Lemma md_file_shape w repo_root p :
  wf w -> md_file_under w (docs_dir_of repo_root) p ->
  exists x,
    p = under repo_root x
    /\ x <> []
    /\ Forall (fun k => ~ In SLASH k) x.
Proof.
  intros W [es [rel [d [Hd [Hl [-> _]]]]]].
  pose proof (stat_wf _ _ _ W Hd) as Wd.
  destruct (wf_lookup_names _ _ _ Wd Hl) as [_ F].
  exists ([lit "docs"; lit "10_language"] ++ rel).
  rewrite docs_dir_of_under, under_under.
  split; [reflexivity|]; split; [discriminate|].
  apply Forall_app; split.
  - repeat constructor; vm_compute; intuition discriminate.
  - eapply Forall_impl; [|exact F]; apply valid_name_noslash.
Qed.

Lemma path_str_inj x y :
  x <> [] -> y <> [] ->
  Forall (fun k => ~ In SLASH k) x -> Forall (fun k => ~ In SLASH k) y ->
  path_str (mkPath Relative x) = path_str (mkPath Relative y) -> x = y.
Proof.
  intros Hx Hy Fx Fy.
  destruct x as [|a x]; [congruence|]; destruct y as [|b y]; [congruence|].
  unfold path_str; cbn [anchor_of parts].
  change (lit "/") with [SLASH]; intros E.
  rewrite <- (split_join SLASH (a :: x)), <- (split_join SLASH (b :: y))
    by assumption.
  rewrite E; reflexivity.
Qed.

Lemma relative_to_rel_of repo_root md_files rels :
  Forall2 (fun p rel => relative_to p repo_root = Ok rel) md_files rels ->
  (forall p, In p md_files -> exists x, p = under repo_root x) ->
  rels = map (rel_of repo_root) md_files.
Proof.
  induction 1 as [|p rel ps rs Hp _ IH]; intros Hshape; simpl;
    [reflexivity|].
  rewrite IH by (intros q Hq; apply Hshape; right; assumption).
  destruct (Hshape p (or_introl eq_refl)) as [x ->].
  rewrite relative_to_under in Hp; inversion Hp; subst rel.
  rewrite rel_of_under; reflexivity.
Qed.

(* ================================================================== *)
(** * The claims *)
(* ================================================================== *)

(** C1.  For a list of files that lie beneath the root and read as text,
    [build_compilation] returns the sections of the files joined by a blank
    line, [---] and a blank line, with one newline after the joined result.
    The section of a file is the heading line [# File: <relative path>], a
    blank line, the content without its trailing whitespace, and one
    newline; blank lines at the end of a content leave the section as it
    is. *)
Theorem build_compilation_format w md_files repo_root :
  Forall (compilable w repo_root) md_files ->
  (exists ss,
      sections_of w repo_root md_files ss
      /\ List.length ss = List.length md_files
      /\ build_compilation w md_files repo_root
         = Ok (join ([LF; LF] ++ lit "---" ++ [LF; LF]) ss ++ [LF]))
  /\ (forall content (k : nat),
         rstrip (content ++ repeat LF k) = rstrip content).
Proof.
  intros Hc; split.
  - destruct (sections_of_exist _ _ _ Hc) as [ss [Hs L]].
    exists ss; split; [assumption|]; split; [assumption|].
    unfold build_compilation.
    rewrite (build_sections_ok _ _ _ _ Hs []); reflexivity.
  - intros content k; apply rstrip_app_space.
    apply Forall_forall; intros c Hin.
    apply repeat_spec in Hin; subst c; reflexivity.
Qed.

Lemma build_compilation_format_witness :
  build_compilation Example.scenario [Example.one_md; Example.two_md]
                    Example.docs
  = Ok Example.scenario_output_from_docs.
Proof.
  destruct (build_compilation_format
              Example.scenario [Example.one_md; Example.two_md] Example.docs)
    as [[ss [Hs [_ E]]] _].
  - repeat constructor; eexists; vm_compute; reflexivity.
  - rewrite E; f_equal.
    inversion Hs as [|? ? ? ? t1 ss1 R1 C1 T1 Hs1]; subst.
    inversion Hs1 as [|? ? ? ? t2 ss2 R2 C2 T2 Hs2]; subst.
    inversion Hs2; subst.
    apply trimmed_unique in T1, T2; subst t1 t2.
    vm_compute in R1, C1, R2, C2.
    inversion R1; inversion C1; inversion R2; inversion C2; subst.
    vm_compute; reflexivity.
Defined.

(** C2.  [collect_markdown_files] raises nothing: it returns a list, empty
    when the path is not a directory.  On a well-formed tree the list holds
    exactly the regular files at or beneath the directory whose names end
    in [.md], each once, in ascending order of their paths relative to the
    directory. *)
Theorem collect_markdown_files_contract w docs_dir :
  exists l,
    collect_markdown_files w docs_dir = Ok l
    /\ (is_dir w docs_dir = false -> l = [])
    /\ (wf w ->
        (forall p, In p l <-> md_file_under w docs_dir p)
        /\ (forall p, In p l -> is_file w p = true)
        /\ NoDup l
        /\ StronglySorted (rel_lt docs_dir) l).
Proof.
  destruct (collect_total w docs_dir) as [l [E [P _]]].
  exists l; split; [assumption|]; split.
  - intros D; destruct l as [|p l]; [reflexivity|].
    assert (Hp : In p (filter (is_file w) (rglob w docs_dir)))
      by (eapply Permutation_in; [exact P | left; reflexivity]).
    apply filter_In in Hp as [Hp _].
    apply rglob_In in Hp as [es [rel [Hd _]]].
    unfold is_dir in D; rewrite Hd in D; discriminate.
  - intros W.
    destruct (collect_spec w docs_dir W) as [l' [E' [N [M S]]]].
    rewrite E in E'; inversion E'; subst l'.
    repeat split; auto; try (apply M; assumption).
    intros p Hp; apply M in Hp.
    apply (collected_iff _ _ _ W), filter_In in Hp; tauto.
Qed.

Lemma collect_markdown_files_contract_witness :
  collect_markdown_files Example.scenario Example.docs
  = Ok [Example.one_md; Example.two_md]
  /\ is_file Example.scenario Example.one_md = true
  /\ StronglySorted (rel_lt Example.docs) [Example.one_md; Example.two_md].
Proof.
  destruct (collect_markdown_files_contract Example.scenario Example.docs)
    as [l [E [_ H]]].
  destruct (H eq_refl) as [_ [F [_ S]]].
  vm_compute in E; inversion E; subst l.
  split; [reflexivity|]; split; [|exact S].
  apply F; left; reflexivity.
Defined.

(** C3, as the code has it.  When the documentation root holds exactly
    [a/one.md] with [Hello] and three newlines and [b/two.md] with [World],
    a run without argument writes the two sections with the paths taken
    from the repository root: the headings read
    [# File: docs/10_language/a/one.md] and
    [# File: docs/10_language/b/two.md].  Between [Hello] and [---] there
    are two empty lines, one from the newline that closes the section and
    one from the separator; the output has 90 characters, the last two of
    them newlines. *)
Theorem scenario_output_from_repo_root script repo_root w es :
  parents_nth script 1 = Ok repo_root ->
  stat w (docs_dir_of repo_root) = Ok (Dir es) ->
  Permutation es Example.scenario_entries ->
  main script None w
  = (Ok tt, set_stdout w (stdout w ++ Example.scenario_output)).
Proof.
  intros H Hd P.
  destruct (scenario_collect _ _ _ Hd P) as [C [T1 T2]].
  rewrite (main_unfold _ _ _ _ H); cbv zeta.
  rewrite (exists_of_stat _ _ _ Hd), C; cbv beta iota delta [negb].
  unfold build_compilation, build_sections.
  rewrite T1, T2, docs_dir_of_under, !under_under, !relative_to_under.
  reflexivity.
Qed.

Lemma scenario_output_from_repo_root_witness :
  main Example.script None Example.scenario
  = (Ok tt,
     set_stdout Example.scenario
                (stdout Example.scenario ++ Example.scenario_output)).
Proof.
  apply (scenario_output_from_repo_root
           Example.script Example.repo Example.scenario
           Example.scenario_entries);
    reflexivity.
Defined.

(** C3 as stated fails: in the scenario the run does not write the string
    the claim gives.  The headings have [docs/10_language/] in front; and
    with the documentation root as reference root the output still has one
    newline more than the claim's string, after [Hello]. *)
Lemma scenario_output_not_as_claimed :
  stat Example.scenario Example.docs = Ok (Dir Example.scenario_entries)
  /\ main Example.script None Example.scenario
     = (Ok tt, set_stdout Example.scenario Example.scenario_output)
  /\ Example.scenario_output <> Example.scenario_output_claimed
  /\ List.length Example.scenario_output = 90
  /\ List.length Example.scenario_output_claimed = 55
  /\ build_compilation Example.scenario
                       [Example.one_md; Example.two_md] Example.docs
     = Ok Example.scenario_output_from_docs
  /\ Example.scenario_output_from_docs <> Example.scenario_output_claimed.
Proof.
  split; [reflexivity|]; split; [reflexivity|]; split;
    [apply str_eqb_neq; reflexivity|].
  split; [reflexivity|]; split; [reflexivity|]; split; [reflexivity|].
  apply str_eqb_neq; reflexivity.
Qed.

(** C4.  When the documentation directory does not exist, [main] exits with
    a message that names the path; when it exists and holds no regular file
    whose name ends in [.md], [main] exits with its other message.  In both
    cases the exit status is not zero and the world is the one before the
    run: nothing is on standard output and no file has changed. *)
Theorem main_exits_without_documents script repo_root argument w :
  parents_nth script 1 = Ok repo_root ->
  let docs_dir := docs_dir_of repo_root in
  (exists_ w docs_dir = false ->
   main script argument w
   = (Raise (SystemExit (lit "Missing docs directory: "
                           ++ path_str docs_dir)), w))
  /\ (wf w -> exists_ w docs_dir = true ->
      (forall p, ~ md_file_under w docs_dir p) ->
      main script argument w
      = (Raise (SystemExit (lit "No markdown files found under "
                              ++ path_str docs_dir)), w))
  /\ (forall msg,
         exit_status (Raise (SystemExit msg)) <> 0%N
         /\ diagnostic (Raise (SystemExit msg)) = Some msg).
Proof.
  intros H docs_dir; split; [|split].
  - apply main_missing_docs; assumption.
  - intros W E Hnone.
    apply main_no_files; try assumption.
    destruct (collect_spec w docs_dir W) as [l [C [_ [M _]]]].
    destruct l as [|p l]; [assumption|].
    destruct (Hnone p); apply M; left; reflexivity.
  - intros msg; split; [discriminate | reflexivity].
Qed.

Lemma main_exits_without_documents_witness :
  main Example.script (Some (lit "out.md")) Example.no_docs
  = (Raise (SystemExit (lit "Missing docs directory: "
                          ++ lit "/repo/docs/10_language")),
     Example.no_docs)
  /\ main Example.script (Some (lit "out.md")) Example.no_markdown
     = (Raise (SystemExit (lit "No markdown files found under "
                             ++ lit "/repo/docs/10_language")),
        Example.no_markdown).
Proof.
  split.
  - apply (proj1 (main_exits_without_documents
                    Example.script Example.repo (Some (lit "out.md"))
                    Example.no_docs eq_refl)).
    reflexivity.
  - apply (proj1 (proj2 (main_exits_without_documents
                           Example.script Example.repo (Some (lit "out.md"))
                           Example.no_markdown eq_refl))).
    + reflexivity.
    + reflexivity.
    + intros p [es [rel [d [Hd [Hl [_ Hm]]]]]].
      vm_compute in Hd; inversion Hd; subst es; clear Hd.
      destruct rel as [|s rel]; [discriminate|].
      cbn [lookup find_entry] in Hl.
      destruct (Str.eqb _ s) in Hl.
      * destruct rel; discriminate.
      * destruct (Str.eqb _ s) eqn:E in Hl; [|discriminate].
        destruct rel; [|discriminate].
        apply str_eqb_eq in E; subst s; discriminate.
Defined.

(** C5, as the code has it.  Take a well-formed tree in which the path of
    no markdown file holds a newline, in the name of the file or of a
    directory on the way to it, and in which the markdown files all read as
    text and none holds a line that begins with [# File: ].  Then the lines
    of the compiled output that begin with [# File: ] are the headings of
    the collected files, one per file and no two alike, in the order of the
    files, which is ascending by path relative to the documentation root;
    the heading shows the path relative to the repository root. *)
Theorem headings_once_in_order w repo_root md_files :
  wf w ->
  collect_markdown_files w (docs_dir_of repo_root) = Ok md_files ->
  (forall p, In p md_files ->
             exists content, read_text w p = Ok content
                             /\ heading_lines content = []) ->
  (forall p rel, In p md_files -> relative_to p repo_root = Ok rel ->
                 ~ In LF (path_str rel)) ->
  exists out rels,
    build_compilation w md_files repo_root = Ok out
    /\ Forall2 (fun p rel => relative_to p repo_root = Ok rel) md_files rels
    /\ heading_lines out
       = map (fun rel => heading_prefix ++ path_str rel) rels
    /\ List.length (heading_lines out) = List.length md_files
    /\ NoDup (heading_lines out)
    /\ NoDup md_files
    /\ (forall p, In p md_files
                  <-> md_file_under w (docs_dir_of repo_root) p)
    /\ StronglySorted (rel_lt (docs_dir_of repo_root)) md_files.
Proof.
  intros W C Hread Hnames.
  destruct (collect_spec w (docs_dir_of repo_root) W) as [l [C' [N [M S]]]].
  rewrite C in C'; inversion C'; subst l; clear C'.
  assert (Hshape : forall p, In p md_files ->
                             exists x, p = under repo_root x /\ x <> []
                                       /\ Forall (fun k => ~ In SLASH k) x).
  { intros p Hp; apply (md_file_shape w); [assumption | apply M, Hp]. }
  assert (Hcomp : Forall (compilable w repo_root) md_files).
  { apply Forall_forall; intros p Hp; split.
    - destruct (Hshape p Hp) as [x [-> _]].
      rewrite relative_to_under; eauto.
    - destruct (Hread p Hp) as [content [Hc _]]; eauto. }
  destruct (sections_of_exist _ _ _ Hcomp) as [ss [Hs _]].
  destruct (heading_lines_sections _ _ _ _ Hs) as [rels [F2 HL]].
  { intros p content Hp Hc.
    destruct (Hread p Hp) as [content' [Hc' Hh]]; congruence. }
  { assumption. }
  exists (join separator ss ++ [LF]), rels.
  assert (Hrels : rels = map (rel_of repo_root) md_files).
  { apply relative_to_rel_of; [assumption|].
    intros p Hp; destruct (Hshape p Hp) as [x [E _]]; eauto. }
  assert (Hdistinct : NoDup (map (fun rel => heading_prefix ++ path_str rel)
                                 rels)).
  { rewrite Hrels, map_map.
    apply NoDup_map_NoDup_ForallPairs; [|assumption].
    intros p q Hp Hq.
    destruct (Hshape p Hp) as [x [-> [Hx Fx]]].
    destruct (Hshape q Hq) as [y [-> [Hy Fy]]].
    rewrite !rel_of_under; intros E.
    apply app_inv_head in E.
    apply path_str_inj in E; try assumption.
    subst y; reflexivity. }
  split; [|split; [|split; [|split; [|split; [|split; [|split]]]]]];
    try assumption.
  - unfold build_compilation.
    rewrite (build_sections_ok _ _ _ _ Hs []); reflexivity.
  - rewrite HL, length_map.
    symmetry; eapply Forall2_length; eassumption.
  - rewrite HL; assumption.
Qed.

Lemma headings_once_in_order_witness :
  exists out rels,
    build_compilation Example.scenario [Example.one_md; Example.two_md]
                      Example.repo = Ok out
    /\ Forall2 (fun p rel => relative_to p Example.repo = Ok rel)
               [Example.one_md; Example.two_md] rels
    /\ heading_lines out
       = map (fun rel => heading_prefix ++ path_str rel) rels
    /\ List.length (heading_lines out) = 2.
Proof.
  destruct (headings_once_in_order
              Example.scenario Example.repo
              [Example.one_md; Example.two_md])
    as [out [rels [B [F2 [HL [Len _]]]]]].
  - reflexivity.
  - reflexivity.
  - intros p [<-|[<-|[]]]; eexists; split; reflexivity.
  - intros p rel [<-|[<-|[]]] H; vm_compute in H; inversion H; subst rel;
      vm_compute; intuition discriminate.
  - exists out, rels; auto.
Defined.

(** C5 as stated fails: a markdown file that quotes a heading line adds a
    line of the form of a heading to the output, so one file gives two. *)
Lemma quoted_heading_counts :
  wf Example.quoting
  /\ collect_markdown_files Example.quoting Example.docs
     = Ok [Example.x_md]
  /\ exists out,
      build_compilation Example.quoting [Example.x_md] Example.repo = Ok out
      /\ heading_lines out
         = [lit "# File: docs/10_language/x.md"; lit "# File: y.md"].
Proof.
  split; [reflexivity|]; split; [reflexivity|].
  eexists; split; reflexivity.
Qed.



(** C7.  [build_compilation] depends on the world through the contents of
    the listed files only: two worlds in which every listed file reads the
    same give the same result for the same list and root. *)
Theorem build_compilation_deterministic w1 w2 md_files repo_root :
  (forall p, In p md_files -> read_text w1 p = read_text w2 p) ->
  build_compilation w1 md_files repo_root
  = build_compilation w2 md_files repo_root.
Proof.
  intros H; unfold build_compilation.
  rewrite (build_sections_same_reads w1 w2 repo_root md_files H []).
  reflexivity.
Qed.

Lemma build_compilation_deterministic_witness :
  build_compilation Example.scenario [Example.one_md; Example.two_md]
                    Example.repo
  = build_compilation
      (mkWorld (root Example.scenario ++ [(lit "tmp", Dir [])]) []
               (lit "earlier output"))
      [Example.one_md; Example.two_md] Example.repo.
Proof.
  apply (build_compilation_deterministic
           Example.scenario
           (mkWorld (root Example.scenario ++ [(lit "tmp", Dir [])]) []
                    (lit "earlier output"))
           [Example.one_md; Example.two_md] Example.repo).
  intros p [<-|[<-|[]]]; vm_compute; reflexivity.
Defined.

(** C8.  After [write_output] to a destination, the same call again leaves
    the world as the first call left it; when the first call returned, the
    second returns too, and the destination holds the string once. *)
Theorem write_output_idempotent compiled dest w :
  let w1 := snd (write_output compiled (Some dest) w) in
  snd (write_output compiled (Some dest) w1) = w1
  /\ (fst (write_output compiled (Some dest) w) = Ok tt ->
      write_output compiled (Some dest) w1 = (Ok tt, w1)
      /\ stat w1 dest = Ok (File (Utf8 compiled))).
Proof.
  destruct (write_output compiled (Some dest) w) as [r w1] eqn:E.
  cbv zeta; cbn [fst snd].
  destruct (write_output_again _ _ _ _ _ E) as [r' [E' Hr]].
  rewrite E'; split; [reflexivity|].
  intros ->; rewrite (Hr eq_refl); split; [reflexivity|].
  apply (write_output_ok _ _ _ _ E).
Qed.

Lemma write_output_idempotent_witness :
  write_output (lit "text") (Some Example.out_md)
               (snd (write_output (lit "text") (Some Example.out_md)
                                  Example.scenario))
  = (Ok tt,
     snd (write_output (lit "text") (Some Example.out_md) Example.scenario))
  /\ stat (snd (write_output (lit "text") (Some Example.out_md)
                             Example.scenario))
          Example.out_md
     = Ok (File (Utf8 (lit "text"))).
Proof.
  apply (proj2 (write_output_idempotent
                  (lit "text") Example.out_md Example.scenario)).
  reflexivity.
Defined.

(** C9, as the code has it.  A list with a path that does not lie beneath
    the root makes [build_compilation] raise, and no string is returned.
    The exception is the [ValueError] of [relative_to] when every file
    before the first such path lies beneath the root and reads as text; a
    file before it that cannot be read raises its own error first.  When
    every path lies beneath the root and reads as text, a string is
    returned. *)
Theorem build_compilation_beneath_root w md_files repo_root :
  ((exists p, In p md_files /\ relative_to p repo_root = Raise ValueError) ->
   exists e, build_compilation w md_files repo_root = Raise e)
  /\ (forall pre p post,
         md_files = pre ++ p :: post ->
         Forall (compilable w repo_root) pre ->
         relative_to p repo_root = Raise ValueError ->
         build_compilation w md_files repo_root = Raise ValueError)
  /\ (Forall (compilable w repo_root) md_files ->
      exists out, build_compilation w md_files repo_root = Ok out).
Proof.
  split; [|split].
  - intros [p [Hin Hp]]; unfold build_compilation.
    destruct (build_sections w repo_root md_files []) as [ss|e] eqn:E;
      simpl; [|eauto].
    apply build_sections_inv in E; rewrite Forall_forall in E.
    destruct (E p Hin) as [[rel Hrel] _]; congruence.
  - intros pre p post -> Hpre Hp; unfold build_compilation.
    destruct (sections_of_exist _ _ _ Hpre) as [ss [Hs _]].
    rewrite build_sections_app, (build_sections_ok _ _ _ _ Hs); simpl.
    rewrite Hp; reflexivity.
  - intros Hall; unfold build_compilation.
    destruct (sections_of_exist _ _ _ Hall) as [ss [Hs _]].
    rewrite (build_sections_ok _ _ _ _ Hs); simpl; eauto.
Qed.

Lemma build_compilation_beneath_root_witness :
  build_compilation Example.scenario [Example.one_md; Example.outside_md]
                    Example.repo
  = Raise ValueError.
Proof.
  apply (proj1 (proj2 (build_compilation_beneath_root
                         Example.scenario
                         [Example.one_md; Example.outside_md] Example.repo))
           [Example.one_md] Example.outside_md []).
  - reflexivity.
  - repeat constructor; eexists; vm_compute; reflexivity.
  - reflexivity.
Defined.

(** C9 as stated fails: with a file beneath the root that does not exist in
    front of a path outside the root, the call raises [FileNotFoundError],
    which is not a [ValueError]. *)
Lemma build_compilation_other_error :
  In Example.outside_md [Example.missing_md; Example.outside_md]
  /\ relative_to Example.outside_md Example.repo = Raise ValueError
  /\ build_compilation Example.scenario
                       [Example.missing_md; Example.outside_md] Example.repo
     = Raise FileNotFoundError
  /\ is_ValueError FileNotFoundError = false.
Proof.
  split; [right; left; reflexivity|].
  repeat split; vm_compute; reflexivity.
Qed.

(** C10.  On the empty list [build_compilation] returns the string of one
    newline, not the empty string.  [main] does not get there: when the
    collector returns the empty list it exits with its message and the
    world is as it was. *)
Theorem build_compilation_empty :
  (forall w repo_root, build_compilation w [] repo_root = Ok [LF])
  /\ [LF] <> ([] : str)
  /\ (forall script argument w repo_root,
         parents_nth script 1 = Ok repo_root ->
         exists_ w (docs_dir_of repo_root) = true ->
         collect_markdown_files w (docs_dir_of repo_root) = Ok [] ->
         exists msg, main script argument w = (Raise (SystemExit msg), w)).
Proof.
  split; [reflexivity|]; split; [discriminate|].
  intros script argument w repo_root H E C.
  rewrite (main_no_files _ _ _ _ H E C); eauto.
Qed.

Lemma build_compilation_empty_witness :
  exists msg,
    main Example.script None Example.no_markdown
    = (Raise (SystemExit msg), Example.no_markdown).
Proof.
  apply (proj2 (proj2 build_compilation_empty)
           Example.script None Example.no_markdown Example.repo);
    reflexivity.
Defined.

(* ================================================================== *)
(** * Further properties of the script *)
(* ================================================================== *)

(** ** What [main] gives [build_compilation] *)

Lemma collected_shape w docs l p :
  collect_markdown_files w docs = Ok l -> In p l ->
  exists es rel,
    stat w docs = Ok (Dir es)
    /\ rel <> []
    /\ matches_md (last rel []) = true
    /\ p = under docs rel
    /\ is_file w p = true.
Proof.
  intros C Hp.
  destruct (collect_total w docs) as [l' [C' [P _]]].
  rewrite C in C'; inversion C'; subst l'.
  eapply Permutation_in in Hp; [|exact P].
  apply filter_In in Hp as [Hp Hf].
  apply rglob_In in Hp as [es [rel [Hd [Hrel ->]]]].
  apply rels_shape in Hrel as [Hne Hm]; eauto 10.
Qed.

Lemma collected_relative_to w repo_root l p :
  collect_markdown_files w (docs_dir_of repo_root) = Ok l -> In p l ->
  exists rel,
    rel <> []
    /\ p = under (docs_dir_of repo_root) rel
    /\ relative_to p repo_root
       = Ok (mkPath Relative (lit "docs" :: lit "10_language" :: rel)).
Proof.
  intros C Hp.
  destruct (collected_shape _ _ _ _ C Hp) as [es [rel [_ [Hne [_ [-> _]]]]]].
  exists rel; split; [assumption|]; split; [reflexivity|].
  rewrite docs_dir_of_under, under_under; apply relative_to_under.
Qed.

(** X1.  Every path [collect_markdown_files] returns for the documentation
    root lies beneath the repository root: [relative_to] returns, and the
    path it returns is [docs/10_language/] followed by the names that lead
    to the file.  So the [ValueError] of [build_compilation] does not occur
    in [main], and every heading shows the documentation directory. *)
Theorem collected_beneath_repo_root w repo_root l :
  collect_markdown_files w (docs_dir_of repo_root) = Ok l ->
  forall p, In p l ->
    exists rel,
      rel <> []
      /\ p = under (docs_dir_of repo_root) rel
      /\ relative_to p repo_root
         = Ok (mkPath Relative (lit "docs" :: lit "10_language" :: rel))
      /\ path_str (mkPath Relative (lit "docs" :: lit "10_language" :: rel))
         = lit "docs/10_language/" ++ join (lit "/") rel.
Proof.
  intros C p Hp.
  destruct (collected_relative_to _ _ _ _ C Hp) as [rel [Hne [E R]]].
  exists rel; split; [assumption|]; split; [assumption|]; split;
    [assumption|].
  destruct rel as [|s rel]; [congruence|].
  unfold path_str; cbn [anchor_of parts join]; reflexivity.
Qed.

Lemma collected_beneath_repo_root_witness :
  exists rel,
    rel <> []
    /\ Example.one_md = under (docs_dir_of Example.repo) rel
    /\ relative_to Example.one_md Example.repo
       = Ok (mkPath Relative (lit "docs" :: lit "10_language" :: rel))
    /\ path_str (mkPath Relative (lit "docs" :: lit "10_language" :: rel))
       = lit "docs/10_language/" ++ join (lit "/") rel.
Proof.
  apply (collected_beneath_repo_root
           Example.scenario Example.repo
           [Example.one_md; Example.two_md]).
  - reflexivity.
  - left; reflexivity.
Defined.

(** ** The run as a whole *)

Lemma collected_reads w docs l p :
  collect_markdown_files w docs = Ok l -> In p l ->
  (exists content, read_text w p = Ok content)
  \/ read_text w p = Raise UnicodeDecodeError.
Proof.
  intros C Hp.
  destruct (collected_shape _ _ _ _ C Hp) as [_ [_ [_ [_ [_ [_ Hf]]]]]].
  apply is_file_stat in Hf as [d Hd].
  unfold read_text; rewrite Hd; destruct d; simpl; eauto.
Qed.

Lemma collected_exists w docs l p :
  collect_markdown_files w docs = Ok l -> In p l -> exists_ w docs = true.
Proof.
  intros C Hp.
  destruct (collected_shape _ _ _ _ C Hp) as [es [_ [Hd _]]].
  eapply exists_of_stat; eassumption.
Qed.

Lemma collected_compilable w repo_root l :
  collect_markdown_files w (docs_dir_of repo_root) = Ok l ->
  (forall p, In p l -> exists content, read_text w p = Ok content) ->
  Forall (compilable w repo_root) l.
Proof.
  intros C Hread; apply Forall_forall; intros p Hp; split; [|auto].
  destruct (collected_relative_to _ _ _ _ C Hp) as [rel [_ [_ H]]].
  eauto.
Qed.

(** With every file beneath the root, the first file that does not read
    decides the outcome. *)
Lemma build_sections_read_error w repo_root e md_files :
  (forall p, In p md_files ->
             (exists rel, relative_to p repo_root = Ok rel)
             /\ ((exists content, read_text w p = Ok content)
                 \/ read_text w p = Raise e)) ->
  (exists p, In p md_files /\ forall content, read_text w p <> Ok content) ->
  forall acc, build_sections w repo_root md_files acc = Raise e.
Proof.
  induction md_files as [|p rest IH]; intros Hall [q [Hq Hbad]] acc;
    [destruct Hq|].
  simpl.
  destruct (Hall p (or_introl eq_refl)) as [[rel ->] Hr]; simpl.
  destruct Hr as [[content Hc]| ->]; [|reflexivity].
  rewrite Hc; simpl; apply IH.
  - intros p' Hp'; apply Hall; right; assumption.
  - destruct Hq as [<-|Hq]; [destruct (Hbad _ Hc)|eauto].
Qed.

Lemma build_compilation_sections w repo_root md_files :
  Forall (compilable w repo_root) md_files ->
  exists ss,
    sections_of w repo_root md_files ss
    /\ List.length ss = List.length md_files
    /\ build_compilation w md_files repo_root
       = Ok (join separator ss ++ [LF]).
Proof.
  intros Hc; destruct (sections_of_exist _ _ _ Hc) as [ss [Hs L]].
  exists ss; split; [assumption|]; split; [assumption|].
  unfold build_compilation.
  rewrite (build_sections_ok _ _ _ _ Hs []); reflexivity.
Qed.

(** [main] from the collected list on. *)
Lemma main_from_collected script repo_root argument w p l :
  parents_nth script 1 = Ok repo_root ->
  collect_markdown_files w (docs_dir_of repo_root) = Ok (p :: l) ->
  main script argument w
  = match build_compilation w (p :: l) repo_root with
    | Raise e => (Raise e, w)
    | Ok compiled =>
        write_output compiled (destination_of (parse_args argument)) w
    end.
Proof.
  intros H C; rewrite (main_unfold _ _ _ _ H); cbv zeta.
  rewrite (collected_exists _ _ _ p C (or_introl eq_refl)), C; reflexivity.
Qed.

(** X2.  When one of the collected files does not read as text, [main]
    raises [UnicodeDecodeError] and the world is the one before the run:
    nothing is on standard output, no directory has been made and no file
    written, whatever the destination and however many files before it
    read well. *)
Theorem main_undecodable_file script repo_root argument w l p :
  parents_nth script 1 = Ok repo_root ->
  collect_markdown_files w (docs_dir_of repo_root) = Ok l ->
  In p l ->
  (forall content, read_text w p <> Ok content) ->
  main script argument w = (Raise UnicodeDecodeError, w).
Proof.
  intros H C Hp Hbad.
  destruct l as [|p0 l]; [destruct Hp|].
  rewrite (main_from_collected _ _ _ _ _ _ H C).
  unfold build_compilation.
  rewrite (build_sections_read_error w repo_root UnicodeDecodeError);
    [reflexivity | | eauto].
  intros q Hq; split.
  - destruct (collected_relative_to _ _ _ _ C Hq) as [rel [_ [_ Hr]]].
    eauto.
  - eapply collected_reads; eassumption.
Qed.

Lemma main_undecodable_file_witness :
  main Example.script (Some (lit "out.md")) Sample.broken
  = (Raise UnicodeDecodeError, Sample.broken).
Proof.
  apply (main_undecodable_file
           Example.script Example.repo (Some (lit "out.md")) Sample.broken
           [Sample.a_md; Sample.b_md] Sample.b_md).
  - reflexivity.
  - reflexivity.
  - right; left; reflexivity.
  - intros content H; vm_compute in H; discriminate.
Defined.

(** X3.  When the collected list is not empty and every file in it reads as
    text, a run without argument, or with [-], returns with exit status 0,
    has put on standard output exactly the compilation of the collected
    list with the repository root as reference, after what was there, and
    has left the tree as it was. *)
Theorem main_to_stdout script repo_root w l :
  parents_nth script 1 = Ok repo_root ->
  collect_markdown_files w (docs_dir_of repo_root) = Ok l ->
  l <> [] ->
  (forall p, In p l -> exists content, read_text w p = Ok content) ->
  exists compiled,
    build_compilation w l repo_root = Ok compiled
    /\ main script None w
       = (Ok tt, mkWorld (root w) (cwd w) (stdout w ++ compiled))
    /\ main script (Some (lit "-")) w = main script None w
    /\ exit_status (fst (main script None w)) = 0%N.
Proof.
  intros H C Hne Hread.
  destruct (build_compilation_sections
              _ _ _ (collected_compilable _ _ _ C Hread)) as [ss [_ [_ B]]].
  destruct l as [|p l]; [congruence|].
  eexists; split; [exact B|].
  rewrite !(main_from_collected _ _ _ _ _ _ H C), B.
  repeat split; reflexivity.
Qed.

Lemma main_to_stdout_witness :
  exists compiled,
    build_compilation Example.scenario [Example.one_md; Example.two_md]
                      Example.repo = Ok compiled
    /\ main Example.script None Example.scenario
       = (Ok tt,
          mkWorld (root Example.scenario) (cwd Example.scenario)
                  (stdout Example.scenario ++ compiled))
    /\ main Example.script (Some (lit "-")) Example.scenario
       = main Example.script None Example.scenario
    /\ exit_status (fst (main Example.script None Example.scenario)) = 0%N.
Proof.
  apply (main_to_stdout Example.script Example.repo Example.scenario
                        [Example.one_md; Example.two_md]).
  - reflexivity.
  - reflexivity.
  - discriminate.
  - intros p [<-|[<-|[]]]; eexists; reflexivity.
Defined.

(** X4.  With an argument other than [-], the same run hands the
    compilation to [write_output] with the argument as a path; when it
    returns, standard output is as it was, the ancestors of the path are
    directories and the file holds the compilation and nothing else. *)
Theorem main_to_destination script repo_root w l s :
  parents_nth script 1 = Ok repo_root ->
  collect_markdown_files w (docs_dir_of repo_root) = Ok l ->
  l <> [] ->
  (forall p, In p l -> exists content, read_text w p = Ok content) ->
  s <> lit "-" ->
  exists compiled,
    build_compilation w l repo_root = Ok compiled
    /\ main script (Some s) w
       = write_output compiled (Some (parse_path s)) w
    /\ forall w',
         main script (Some s) w = (Ok tt, w') ->
         stdout w' = stdout w
         /\ (forall x, In x (parents (parse_path s)) -> is_dir w' x = true)
         /\ stat w' (parse_path s) = Ok (File (Utf8 compiled)).
Proof.
  intros H C Hne Hread Hs.
  destruct (build_compilation_sections
              _ _ _ (collected_compilable _ _ _ C Hread)) as [ss [_ [_ B]]].
  destruct l as [|p l]; [congruence|].
  assert (E : main script (Some s) w
              = write_output (join separator ss ++ [LF])
                             (Some (parse_path s)) w).
  { rewrite (main_from_collected _ _ _ _ _ _ H C), B.
    unfold destination_of, parse_args.
    apply str_eqb_neq in Hs; rewrite Hs; reflexivity. }
  eexists; split; [exact B|]; split; [exact E|].
  intros w' Hok; rewrite E in Hok.
  destruct (write_output_ok _ _ _ _ Hok) as [_ [S [A St]]]; auto.
Qed.

Lemma main_to_destination_witness :
  exists compiled,
    build_compilation Example.scenario [Example.one_md; Example.two_md]
                      Example.repo = Ok compiled
    /\ main Example.script (Some (lit "out/all/c.md")) Example.scenario
       = write_output compiled (Some (parse_path (lit "out/all/c.md")))
                      Example.scenario
    /\ forall w',
         main Example.script (Some (lit "out/all/c.md")) Example.scenario
         = (Ok tt, w') ->
         stdout w' = stdout Example.scenario
         /\ (forall x, In x (parents (parse_path (lit "out/all/c.md"))) ->
                       is_dir w' x = true)
         /\ stat w' (parse_path (lit "out/all/c.md"))
            = Ok (File (Utf8 compiled)).
Proof.
  apply (main_to_destination Example.script Example.repo Example.scenario
                             [Example.one_md; Example.two_md]
                             (lit "out/all/c.md")).
  - reflexivity.
  - reflexivity.
  - discriminate.
  - intros p [<-|[<-|[]]]; eexists; reflexivity.
  - apply str_eqb_neq; reflexivity.
Defined.

(** X5.  When [docs/10_language] exists but is a regular file, [main] does
    not report it missing: the directory check passes, nothing is
    collected, and the run exits with the message of the empty case, the
    world as it was. *)
Theorem main_docs_is_a_file script repo_root argument w :
  parents_nth script 1 = Ok repo_root ->
  is_file w (docs_dir_of repo_root) = true ->
  collect_markdown_files w (docs_dir_of repo_root) = Ok []
  /\ main script argument w
     = (Raise (SystemExit (lit "No markdown files found under "
                             ++ path_str (docs_dir_of repo_root))), w).
Proof.
  intros H Hf.
  apply is_file_stat in Hf as [d Hd].
  assert (C : collect_markdown_files w (docs_dir_of repo_root) = Ok []).
  { unfold collect_markdown_files, rglob; rewrite Hd; reflexivity. }
  split; [exact C|].
  apply main_no_files; [assumption | | assumption].
  eapply exists_of_stat; eassumption.
Qed.

Lemma main_docs_is_a_file_witness :
  collect_markdown_files Sample.docs_is_file (docs_dir_of Example.repo)
  = Ok []
  /\ main Example.script None Sample.docs_is_file
     = (Raise (SystemExit (lit "No markdown files found under "
                             ++ path_str (docs_dir_of Example.repo))),
        Sample.docs_is_file).
Proof.
  apply (main_docs_is_a_file Example.script Example.repo None
                             Sample.docs_is_file);
    reflexivity.
Defined.

Lemma length_parents_rev a r :
  List.length (parents_rev a r) = List.length r.
Proof. induction r as [|s r IH]; simpl; congruence. Qed.

(** X6.  [main] needs two directories above the script: when the resolved
    path of the script has fewer than two segments, [parents[1]] raises
    [IndexError] before anything is looked at, and the world is as it
    was. *)
Theorem main_script_too_high script argument w :
  List.length (parts script) < 2 ->
  main script argument w = (Raise IndexError, w).
Proof.
  intros Hlen.
  assert (H : parents_nth script 1 = Raise IndexError).
  { unfold parents_nth, parents.
    destruct (nth_error _ 1) eqn:E; [|reflexivity].
    assert (nth_error (parents_rev (anchor_of script) (rev (parts script))) 1
            <> None) as Hn by congruence.
    apply nth_error_Some in Hn.
    rewrite length_parents_rev, length_rev in Hn; lia. }
  unfold main, bind, reads; rewrite H; reflexivity.
Qed.

Lemma main_script_too_high_witness :
  main (mkPath Root [lit "compile_language_docs.py"]) None Example.scenario
  = (Raise IndexError, Example.scenario).
Proof.
  apply (main_script_too_high
           (mkPath Root [lit "compile_language_docs.py"]) None
           Example.scenario).
  simpl; lia.
Defined.

(** ** The collected list and the order of directory listings *)

Lemma rel_lt_asym docs p q : rel_lt docs p q -> rel_lt docs q p -> False.
Proof.
  intros [rp [rq [Hp [Hq H1]]]] [rq' [rp' [Hq' [Hp' H2]]]].
  rewrite Hp in Hp'; rewrite Hq in Hq'.
  inversion Hp'; inversion Hq'; subst rp' rq'.
  apply path_ltb_asym in H1; congruence.
Qed.

(** Two lists in strict order with the same elements are the same list. *)
Lemma strictly_sorted_unique {A} (R : A -> A -> Prop) (l1 l2 : list A) :
  (forall a b, R a b -> R b a -> False) ->
  StronglySorted R l1 -> StronglySorted R l2 ->
  NoDup l1 -> NoDup l2 ->
  (forall a, In a l1 <-> In a l2) ->
  l1 = l2.
Proof.
  intros Hasym S1; revert l2.
  induction S1 as [|a l1 S1 IH Ha]; intros l2 S2 N1 N2 Hin.
  - destruct l2 as [|b l2]; [reflexivity|].
    destruct (proj2 (Hin b) (or_introl eq_refl)).
  - destruct S2 as [|b l2 S2 Hb].
    + destruct (proj1 (Hin a) (or_introl eq_refl)).
    + rewrite Forall_forall in Ha, Hb.
      assert (a = b).
      { destruct (proj1 (Hin a) (or_introl eq_refl)) as [E|Ha2]; [auto|].
        destruct (proj2 (Hin b) (or_introl eq_refl)) as [E|Hb1]; [auto|].
        destruct (Hasym a b); auto. }
      subst b; f_equal.
      inversion N1 as [|? ? Hn1 N1']; inversion N2 as [|? ? Hn2 N2']; subst.
      apply IH; auto.
      intros x; split; intros Hx.
      * destruct (proj1 (Hin x) (or_intror Hx)) as [E|]; [|assumption].
        subst x; contradiction.
      * destruct (proj2 (Hin x) (or_intror Hx)) as [E|]; [|assumption].
        subst x; contradiction.
Qed.

(** X7.  On well-formed trees the result of [collect_markdown_files] is
    decided by which markdown files there are beneath the directory: two
    worlds with the same ones give the same list, in whatever order each
    lists the entries of its directories. *)
Theorem collect_independent_of_listing w1 w2 docs_dir :
  wf w1 -> wf w2 ->
  (forall p, md_file_under w1 docs_dir p <-> md_file_under w2 docs_dir p) ->
  collect_markdown_files w1 docs_dir = collect_markdown_files w2 docs_dir.
Proof.
  intros W1 W2 Hsame.
  destruct (collect_spec w1 docs_dir W1) as [l1 [E1 [N1 [M1 S1]]]].
  destruct (collect_spec w2 docs_dir W2) as [l2 [E2 [N2 [M2 S2]]]].
  rewrite E1, E2; f_equal.
  apply (strictly_sorted_unique (rel_lt docs_dir)); auto.
  - intros a b; apply rel_lt_asym.
  - intros p; rewrite M1, M2; apply Hsame.
Qed.

Lemma collect_independent_of_listing_witness :
  collect_markdown_files Example.scenario Example.docs
  = collect_markdown_files Sample.scenario_reversed Example.docs.
Proof.
  apply (collect_independent_of_listing
           Example.scenario Sample.scenario_reversed Example.docs).
  - reflexivity.
  - reflexivity.
  - intros p.
    rewrite <- (collected_iff Example.scenario Example.docs p eq_refl).
    rewrite <- (collected_iff Sample.scenario_reversed Example.docs p
                              eq_refl).
    change (filter (is_file Example.scenario)
                   (rglob Example.scenario Example.docs))
      with [Example.one_md; Example.two_md].
    change (filter (is_file Sample.scenario_reversed)
                   (rglob Sample.scenario_reversed Example.docs))
      with [Example.two_md; Example.one_md].
    simpl; tauto.
Defined.

(** ** The shape of a compilation *)

Lemma build_compilation_inv w repo_root md_files out :
  build_compilation w md_files repo_root = Ok out ->
  exists ss,
    sections_of w repo_root md_files ss
    /\ List.length ss = List.length md_files
    /\ out = join separator ss ++ [LF].
Proof.
  intros B.
  assert (Hc : Forall (compilable w repo_root) md_files).
  { unfold build_compilation in B.
    destruct (build_sections w repo_root md_files []) as [ss|e] eqn:E;
      [|discriminate].
    eapply build_sections_inv; eassumption. }
  destruct (build_compilation_sections _ _ _ Hc) as [ss [Hs [L B']]].
  exists ss; split; [assumption|]; split; [assumption|congruence].
Qed.

Lemma sections_of_app w repo_root xs ys sx sy :
  sections_of w repo_root xs sx -> sections_of w repo_root ys sy ->
  sections_of w repo_root (xs ++ ys) (sx ++ sy).
Proof.
  induction 1; intros Hy; simpl; [assumption|].
  econstructor; eauto.
Qed.

Lemma join_app sep (sx sy : list str) :
  sx <> [] -> sy <> [] ->
  join sep (sx ++ sy) = join sep sx ++ sep ++ join sep sy.
Proof.
  induction sx as [|x sx IH]; [congruence|]; intros _ Hy.
  destruct sx as [|x' sx].
  - simpl app; rewrite join_cons by assumption; reflexivity.
  - change ((x :: x' :: sx) ++ sy) with (x :: (x' :: sx) ++ sy).
    rewrite !join_cons by discriminate.
    rewrite IH by (assumption || discriminate).
    rewrite <- !app_assoc; reflexivity.
Qed.

Lemma nonempty_of_length {A B} (l : list A) (l' : list B) :
  List.length l' = List.length l -> l <> [] -> l' <> [].
Proof. destruct l, l'; simpl; congruence. Qed.

(** X8.  Compilations compose: for two lists that are not empty and
    compile, the compilation of the lists one after the other is the
    compilation of the first without its last newline, the separator, and
    the compilation of the second. *)
Theorem build_compilation_app w repo_root xs ys ox oy :
  xs <> [] -> ys <> [] ->
  build_compilation w xs repo_root = Ok ox ->
  build_compilation w ys repo_root = Ok oy ->
  build_compilation w (xs ++ ys) repo_root
  = Ok (removelast ox ++ separator ++ oy).
Proof.
  intros Hx Hy Bx By.
  destruct (build_compilation_inv _ _ _ _ Bx) as [sx [Sx [Lx ->]]].
  destruct (build_compilation_inv _ _ _ _ By) as [sy [Sy [Ly ->]]].
  pose proof (sections_of_app _ _ _ _ _ _ Sx Sy) as Sxy.
  unfold build_compilation.
  rewrite (build_sections_ok _ _ _ _ Sxy []); simpl rbind.
  rewrite removelast_last, join_app, <- !app_assoc;
    eauto using nonempty_of_length.
Qed.

Lemma build_compilation_app_witness :
  build_compilation Example.scenario ([Example.one_md] ++ [Example.two_md])
                    Example.repo
  = Ok (removelast
          (lit "# File: docs/10_language/a/one.md" ++ [LF; LF]
           ++ lit "Hello" ++ [LF; LF])
        ++ separator
        ++ (lit "# File: docs/10_language/b/two.md" ++ [LF; LF]
            ++ lit "World" ++ [LF; LF])).
Proof.
  apply (build_compilation_app Example.scenario Example.repo
                               [Example.one_md] [Example.two_md]);
    try discriminate; reflexivity.
Defined.

Lemma build_sections_acc w repo_root md_files acc :
  build_sections w repo_root md_files acc
  = (ss <- build_sections w repo_root md_files [] ;; Ok (acc ++ ss))%py.
Proof.
  revert acc; induction md_files as [|p rest IH]; intros acc; simpl.
  - rewrite app_nil_r; reflexivity.
  - destruct (relative_to p repo_root); simpl; [|reflexivity].
    destruct (read_text w p); simpl; [|reflexivity].
    rewrite IH, (IH [_]).
    destruct (build_sections w repo_root rest []); simpl; [|reflexivity].
    rewrite <- app_assoc; reflexivity.
Qed.

(** X9.  The files are handled in order and the first failure ends the
    call: when a list does not compile, no list that starts with it does,
    and the exception is the same; when it compiles and the list after it
    does not, the two together raise the exception of the second.  Nothing
    of the compiled part is returned. *)
Theorem build_compilation_first_failure w repo_root xs ys e :
  (build_compilation w xs repo_root = Raise e ->
   build_compilation w (xs ++ ys) repo_root = Raise e)
  /\ ((exists ox, build_compilation w xs repo_root = Ok ox) ->
      build_compilation w ys repo_root = Raise e ->
      build_compilation w (xs ++ ys) repo_root = Raise e).
Proof.
  unfold build_compilation; split.
  - intros H; rewrite build_sections_app.
    destruct (build_sections w repo_root xs []); [discriminate|].
    simpl in *; congruence.
  - intros [ox Hx] Hy; rewrite build_sections_app.
    destruct (build_sections w repo_root xs []) as [sx|]; [|discriminate].
    simpl rbind at 2; rewrite build_sections_acc.
    destruct (build_sections w repo_root ys []); [discriminate|].
    simpl in *; congruence.
Qed.

Lemma build_compilation_first_failure_witness :
  build_compilation Sample.broken ([Sample.a_md] ++ [Sample.b_md; Sample.a_md])
                    Example.repo
  = Raise UnicodeDecodeError
  /\ build_compilation Sample.broken
                       ([Sample.b_md] ++ [Example.outside_md]) Example.repo
     = Raise UnicodeDecodeError.
Proof.
  split.
  - apply (proj2 (build_compilation_first_failure
                    Sample.broken Example.repo
                    [Sample.a_md] [Sample.b_md; Sample.a_md]
                    UnicodeDecodeError)).
    + eexists; reflexivity.
    + reflexivity.
  - apply (proj1 (build_compilation_first_failure
                    Sample.broken Example.repo
                    [Sample.b_md] [Example.outside_md]
                    UnicodeDecodeError)).
    reflexivity.
Defined.

Lemma join_last sep (ss : list str) s :
  exists pre, join sep (ss ++ [s]) = pre ++ s.
Proof.
  induction ss as [|x ss [pre IH]].
  - exists []; reflexivity.
  - exists (x ++ sep ++ pre).
    change ((x :: ss) ++ [s]) with (x :: (ss ++ [s])).
    rewrite join_cons by (destruct ss; discriminate).
    rewrite IH, <- !app_assoc; reflexivity.
Qed.

Lemma sections_end_in_newline w repo_root md_files ss :
  sections_of w repo_root md_files ss ->
  Forall (fun s => exists y, s = y ++ [LF]) ss.
Proof.
  induction 1 as [|path rest rel content t ss _ _ _ _ IH]; constructor;
    [|assumption].
  exists (lit "# File: " ++ path_str rel ++ [LF] ++ [LF] ++ t).
  rewrite <- !app_assoc; reflexivity.
Qed.

(** X10.  The compilation of a list that is not empty ends in two
    newlines: the one that closes the last section and the one appended to
    the whole.  A destination file written by [main] so ends in an empty
    line. *)
Theorem build_compilation_ends_blank w repo_root md_files out :
  md_files <> [] ->
  build_compilation w md_files repo_root = Ok out ->
  exists body, out = body ++ [LF; LF].
Proof.
  intros Hne B.
  destruct (build_compilation_inv _ _ _ _ B) as [ss [Hs [L ->]]].
  pose proof (sections_end_in_newline _ _ _ _ Hs) as F.
  destruct ss as [|s0 ss] using rev_ind.
  - destruct md_files; [congruence | discriminate].
  - apply Forall_app in F as [_ F]; inversion F as [|? ? [y ->] _]; subst.
    destruct (join_last separator ss (y ++ [LF])) as [pre ->].
    exists (pre ++ y); rewrite <- !app_assoc; reflexivity.
Qed.

Lemma build_compilation_ends_blank_witness :
  exists body,
    lit "# File: docs/10_language/a/one.md" ++ [LF; LF]
    ++ lit "Hello" ++ [LF; LF]
    = body ++ [LF; LF].
Proof.
  apply (build_compilation_ends_blank
           Example.scenario Example.repo [Example.one_md]);
    [discriminate | reflexivity].
Defined.

(** X11.  A file that is empty or holds whitespace only still gets its
    section: the heading, the blank line after it, and the newline that
    closes the section, with nothing between them. *)
Theorem build_compilation_blank_file w repo_root p rel content :
  relative_to p repo_root = Ok rel ->
  read_text w p = Ok content ->
  Forall (fun c => isspace c = true) content ->
  build_compilation w [p] repo_root
  = Ok (lit "# File: " ++ path_str rel ++ [LF; LF] ++ [LF] ++ [LF]).
Proof.
  intros Hrel Hread Hsp.
  unfold build_compilation, build_sections.
  rewrite Hrel; simpl rbind; rewrite Hread; simpl rbind.
  pose proof (rstrip_app_space [] content Hsp) as E.
  cbn [app] in E; rewrite E.
  cbn [join app]; unfold rstrip; cbn [rev drop_space app].
  rewrite <- !app_assoc; reflexivity.
Qed.

Lemma build_compilation_blank_file_witness :
  build_compilation Sample.blank [Sample.blank_md] Example.repo
  = Ok (lit "# File: "
        ++ path_str (mkPath Relative
                            [lit "docs"; lit "10_language"; lit "blank.md"])
        ++ [LF; LF] ++ [LF] ++ [LF]).
Proof.
  apply (build_compilation_blank_file
           Sample.blank Example.repo Sample.blank_md
           (mkPath Relative [lit "docs"; lit "10_language"; lit "blank.md"])
           [32; LF; 9; LF]%N).
  - reflexivity.
  - reflexivity.
  - repeat constructor.
Defined.

(** ** Line ends *)

Lemma universal_newlines_cons c r :
  universal_newlines (c :: r)
  = if N.eqb c CR then
      match r with
      | d :: r' => if N.eqb d LF then LF :: universal_newlines r'
                   else LF :: universal_newlines r
      | [] => [LF]
      end
    else c :: universal_newlines r.
Proof. reflexivity. Qed.

Lemma universal_newlines_bounded (n : nat) :
  forall s, List.length s <= n -> ~ In CR (universal_newlines s).
Proof.
  induction n as [|n IH]; intros [|c r] Hlen; cbn [List.length] in Hlen;
    try (intros []; fail); try lia.
  rewrite universal_newlines_cons.
  destruct (N.eqb c CR) eqn:Ec.
  - destruct r as [|d r'].
    + intros [H|[]]; discriminate.
    + cbn [List.length] in Hlen.
      destruct (N.eqb d LF); intros [H|H]; try discriminate;
        revert H; apply IH; cbn [List.length]; lia.
  - apply N.eqb_neq in Ec.
    intros [H|H]; [congruence|].
    revert H; apply IH; lia.
Qed.

Lemma universal_newlines_no_CR s : ~ In CR (universal_newlines s).
Proof. apply (universal_newlines_bounded (List.length s)); lia. Qed.

Lemma universal_newlines_id s : ~ In CR s -> universal_newlines s = s.
Proof.
  induction s as [|c r IH]; simpl; [reflexivity|]; intros H.
  destruct (N.eqb c CR) eqn:Ec; [apply N.eqb_eq in Ec; tauto|].
  rewrite IH by tauto; reflexivity.
Qed.

Lemma read_text_no_CR w p content :
  read_text w p = Ok content -> ~ In CR content.
Proof.
  unfold read_text; destruct (stat w p) as [[[s|]|es]|e]; simpl;
    try discriminate.
  intros H; inversion H; subst; apply universal_newlines_no_CR.
Qed.

Lemma trimmed_In content t c : trimmed content t -> In c t -> In c content.
Proof.
  intros [[ws [-> _]] _] H; apply in_app_iff; auto.
Qed.

Lemma join_In sep (ss : list str) c :
  In c (join sep ss) -> In c sep \/ exists s, In s ss /\ In c s.
Proof.
  induction ss as [|x ss IH]; simpl; [tauto|].
  destruct ss as [|y ss].
  - intros H; right; exists x; auto.
  - rewrite !in_app_iff; intros [H|[H|H]].
    + right; exists x; auto.
    + auto.
    + destruct (IH H) as [H'|[s [Hs Hc]]]; [auto|].
      right; exists s; split; [right; assumption | assumption].
Qed.

(** X12.  Reading in text mode turns every line end into a newline, so a
    compilation holds no carriage return unless the path of a file does:
    the contents bring none, whatever line ends the files were written
    with. *)
Theorem build_compilation_no_carriage_return w repo_root md_files out :
  build_compilation w md_files repo_root = Ok out ->
  (forall p rel, In p md_files -> relative_to p repo_root = Ok rel ->
                 ~ In CR (path_str rel)) ->
  ~ In CR out.
Proof.
  intros B Hnames.
  destruct (build_compilation_inv _ _ _ _ B) as [ss [Hs [_ ->]]].
  assert (F : Forall (fun s => ~ In CR s) ss).
  { clear B; induction Hs as [|path rest rel content t ss Hrel Hread Ht _ IH];
      constructor.
    - rewrite !in_app_iff; intros [H|[H|[H|[H|[H|H]]]]].
      + vm_compute in H; intuition discriminate.
      + revert H; apply (Hnames path); [left; reflexivity | assumption].
      + destruct H as [H|[]]; discriminate.
      + destruct H as [H|[]]; discriminate.
      + apply (read_text_no_CR _ _ _ Hread), (trimmed_In _ _ _ Ht H).
      + destruct H as [H|[]]; discriminate.
    - apply IH; intros p r Hp; apply Hnames; right; assumption. }
  rewrite in_app_iff; intros [H|[H|[]]]; [|discriminate].
  apply join_In in H as [H|[s [Hs' Hc]]].
  - vm_compute in H; intuition discriminate.
  - rewrite Forall_forall in F; exact (F s Hs' Hc).
Qed.

Lemma build_compilation_no_carriage_return_witness :
  build_compilation Sample.blank [Sample.dos_md] Example.repo
  = Ok (lit "# File: docs/10_language/dos.md" ++ [LF; LF]
        ++ lit "one" ++ [LF] ++ lit "two" ++ [LF; LF])
  /\ ~ In CR (lit "# File: docs/10_language/dos.md" ++ [LF; LF]
              ++ lit "one" ++ [LF] ++ lit "two" ++ [LF; LF]).
Proof.
  split; [reflexivity|].
  apply (build_compilation_no_carriage_return
           Sample.blank Example.repo [Sample.dos_md]).
  - reflexivity.
  - intros p rel [<-|[]] H; vm_compute in H; inversion H; subst rel.
    vm_compute; intuition discriminate.
Defined.

(** X13.  What [write_output] has written to a destination reads back as
    it was given, as long as it holds no carriage return; with X12 that is
    the case for a compilation of files whose paths hold none. *)
Theorem write_output_reads_back compiled dest w w' :
  write_output compiled (Some dest) w = (Ok tt, w') ->
  ~ In CR compiled ->
  read_text w' dest = Ok compiled.
Proof.
  intros H Hcr.
  destruct (write_output_ok _ _ _ _ H) as [_ [_ [_ St]]].
  unfold read_text; rewrite St; simpl.
  rewrite universal_newlines_id by assumption; reflexivity.
Qed.

Lemma write_output_reads_back_witness :
  read_text (snd (write_output (lit "text") (Some Example.out_md)
                               Example.scenario))
            Example.out_md
  = Ok (lit "text").
Proof.
  apply (write_output_reads_back
           (lit "text") Example.out_md Example.scenario
           (snd (write_output (lit "text") (Some Example.out_md)
                              Example.scenario))).
  - reflexivity.
  - vm_compute; intuition discriminate.
Defined.

(** ** What a write leaves of the tree *)

Lemma only_new_dirs_refl w : only_new_dirs w w.
Proof. repeat split; auto. Qed.

Lemma only_new_dirs_trans w1 w2 w3 :
  only_new_dirs w1 w2 -> only_new_dirs w2 w3 -> only_new_dirs w1 w3.
Proof.
  intros [S1 [C1 K1]] [S2 [C2 K2]].
  split; [congruence|]; split; [congruence|].
  intros q; destruct (K1 q) as [E1|[M1 D1]], (K2 q) as [E2|[M2 D2]].
  - left; congruence.
  - right; split; congruence.
  - right; split; congruence.
  - congruence.
Qed.

Lemma os_mkdir_only_new_dirs p w r w' :
  os_mkdir p w = (r, w') -> only_new_dirs w w'.
Proof.
  unfold os_mkdir.
  destruct (resolve w p) as [c|e] eqn:R;
    [|intros H; inversion H; apply only_new_dirs_refl].
  destruct (lookup (root w) c) as [n|] eqn:L;
    intros H; inversion H; subst; [apply only_new_dirs_refl|].
  assert (K : kind_at (root w) c = Missing)
    by (unfold kind_at; rewrite L; reflexivity).
  split; [reflexivity|]; split; [reflexivity|].
  intros q; simpl root.
  destruct (list_eq_dec (list_eq_dec N.eq_dec) q c) as [->|Hq].
  - right; split; [assumption|].
    destruct (resolve_target _ _ _ R) as [K'|[q0 [s [-> Kq]]]];
      [congruence|].
    unfold kind_at.
    rewrite lookup_put_same by (apply kind_at_dir; assumption); reflexivity.
  - left; apply kind_put_other; [reflexivity | congruence | assumption].
Qed.

Lemma mkdir_here_only_new_dirs exist_ok p w r w' :
  mkdir_here exist_ok p w = (r, w') -> only_new_dirs w w'.
Proof.
  unfold mkdir_here.
  destruct (os_mkdir p w) as [[[]|e] w1] eqn:E;
    apply os_mkdir_only_new_dirs in E.
  - intros H; inversion H; subst; assumption.
  - destruct e; try destruct (negb exist_ok || negb (is_dir w1 p));
      intros H; inversion H; subst; assumption.
Qed.

Lemma mkdir_parents_only_new_dirs a rparts :
  forall w r w',
    mkdir_parents a rparts w = (r, w') -> only_new_dirs w w'.
Proof.
  induction rparts as [|s up IH]; intros w r w'; cbn [mkdir_parents];
    destruct (os_mkdir _ w) as [[[]|e] w1] eqn:E;
    apply os_mkdir_only_new_dirs in E;
    try (intros H; inversion H; subst; assumption);
    try (destruct e; try destruct (negb (is_dir w1 _));
         intros H; inversion H; subst; assumption).
  destruct e; try destruct (negb (is_dir w1 _));
    try (intros H; inversion H; subst; assumption).
  unfold bind.
  destruct (mkdir_parents a up w1) as [[[]|e1] w2] eqn:E1;
    apply IH in E1.
  - intros H; apply mkdir_here_only_new_dirs in H.
    eauto using only_new_dirs_trans.
  - intros H; inversion H; subst; eauto using only_new_dirs_trans.
Qed.

(** After the ancestors, the write: one file, and the directories made
    on the way. *)
Lemma write_text_one_file dest data w w1 w2 :
  only_new_dirs w w1 ->
  write_text dest data w1 = (Ok tt, w2) ->
  stdout w2 = stdout w
  /\ exists c, resolve w2 dest = Ok c /\ one_file_written w w2 c data.
Proof.
  intros [S1 [C1 K1]] E2.
  destruct (write_text_ok _ _ _ _ E2) as [X2 [S2 [St [_ [c [R [Kc Fr]]]]]]].
  split; [congruence|].
  exists c; split; [eapply resolve_mono; eassumption|]; split.
  - destruct (stat_inv _ _ _ St) as [c' [R' L']].
    rewrite (resolve_mono _ _ _ _ X2 R) in R'; inversion R'; subst c'.
    unfold kind_at; rewrite L'; reflexivity.
  - intros q Hq; rewrite (Fr q Hq); apply K1.
Qed.

(** X14.  [write_output] to a destination touches one file at most, and
    standard output not at all.  When it returns, every place of the tree
    is as it was, except that directories may have been made where there
    was nothing, and except the place the destination resolves to, which
    is a file with the string.  When it raises, the same holds with
    nothing written: the ancestors made before the failure stay.  The one
    exception is the encoder: when the string does not encode as UTF-8,
    which is the case when it holds a surrogate code point, the file has
    been opened before [UnicodeEncodeError] is raised, and the destination
    is left an empty file, whatever it held before. *)
Theorem write_output_touches_one_file compiled dest w r w' :
  write_output compiled (Some dest) w = (r, w') ->
  stdout w' = stdout w
  /\ (r = Ok tt ->
      encodable compiled = true
      /\ exists c, resolve w' dest = Ok c
                   /\ one_file_written w w' c compiled)
  /\ (forall e, r = Raise e ->
                only_new_dirs w w'
                \/ (e = UnicodeEncodeError
                    /\ encodable compiled = false
                    /\ exists c, resolve w' dest = Ok c
                                 /\ one_file_written w w' c []))
  /\ (encodable compiled = true ->
      forall e, r = Raise e -> only_new_dirs w w').
Proof.
  unfold write_output, bind, mkdir_p.
  destruct (mkdir_parents _ _ w) as [[[]|e1] w1] eqn:E1;
    pose proof (mkdir_parents_only_new_dirs _ _ _ _ _ E1) as N1.
  - destruct (write_text dest compiled w1) as [[[]|e2] w2] eqn:E2;
      intros H; inversion H; subst r w'; clear H.
    + destruct (write_text_one_file _ _ _ _ _ N1 E2) as [S2 Hc].
      split; [assumption|]; split; [|split; discriminate].
      intros _; split; [|assumption].
      apply (write_text_encodable _ _ _ _ E2).
    + destruct (write_text_raise _ _ _ _ _ E2) as [->|[-> [Enc E0]]].
      * split; [apply N1|]; split; [discriminate|]; split; auto.
      * destruct (write_text_one_file _ _ _ _ _ N1 E0) as [S2 Hc].
        split; [assumption|]; split; [discriminate|]; split.
        -- intros e He; inversion He; subst e; right; auto.
        -- congruence.
  - intros H; inversion H; subst r w'; clear H.
    split; [apply N1|]; split; [discriminate|]; split; auto.
Qed.

Lemma write_output_touches_one_file_witness :
  (only_new_dirs
     Example.scenario
     (snd (write_output (lit "text") (Some Example.back_dest)
                        Example.scenario))
   /\ is_dir (snd (write_output (lit "text") (Some Example.back_dest)
                                Example.scenario))
             (mkPath Relative [lit "x"])
      = true)
  /\ (exists c,
         resolve (snd (write_output [55296%N] (Some Example.one_md)
                                    Example.scenario))
                 Example.one_md = Ok c
         /\ one_file_written
              Example.scenario
              (snd (write_output [55296%N] (Some Example.one_md)
                                 Example.scenario))
              c []).
Proof.
  split; [split; [|reflexivity]|].
  - apply (proj2 (proj2 (proj2 (write_output_touches_one_file
                                  (lit "text") Example.back_dest
                                  Example.scenario
                                  (Raise IsADirectoryError)
                                  (snd (write_output
                                          (lit "text")
                                          (Some Example.back_dest)
                                          Example.scenario))
                                  eq_refl)))
             eq_refl IsADirectoryError eq_refl).
  - destruct (proj1 (proj2 (proj2 (write_output_touches_one_file
                                     [55296%N] Example.one_md
                                     Example.scenario
                                     (Raise UnicodeEncodeError)
                                     (snd (write_output
                                             [55296%N]
                                             (Some Example.one_md)
                                             Example.scenario))
                                     eq_refl)))
                UnicodeEncodeError eq_refl)
      as [[_ [_ K]]|[_ [_ H]]]; [|exact H].
    exfalso.
    destruct (K [lit "repo"; lit "docs"; lit "10_language"; lit "a";
                 lit "one.md"])
      as [E|[E _]]; vm_compute in E; discriminate.
Defined.

(** X15.  A destination in the documentation tree whose name ends in [.md]
    is a markdown file of that tree once it is written: the next call of
    [collect_markdown_files] returns it with the others, so the next
    compilation holds the previous one. *)
Theorem destination_in_docs_is_collected compiled docs_dir rel w w' :
  write_output compiled (Some (under docs_dir rel)) w = (Ok tt, w') ->
  rel <> [] ->
  Forall plain rel ->
  matches_md (last rel []) = true ->
  exists l,
    collect_markdown_files w' docs_dir = Ok l
    /\ In (under docs_dir rel) l
    /\ read_text w' (under docs_dir rel) = Ok (universal_newlines compiled).
Proof.
  intros H Hne Hplain Hm.
  destruct (write_output_ok _ _ _ _ H) as [_ [_ [A St]]].
  assert (D : is_dir w' docs_dir = true).
  { apply A; rewrite <- (path_eta docs_dir) at 1.
    unfold under; apply parents_In; assumption. }
  unfold is_dir in D.
  destruct (stat w' docs_dir) as [[d|es]|e] eqn:Hd; try discriminate.
  pose proof (stat_under_inv _ _ _ _ _ Hd Hplain St) as L.
  destruct (collect_total w' docs_dir) as [l [C [P _]]].
  exists l; split; [assumption|]; split.
  - eapply Permutation_in; [symmetry; exact P|].
    apply filter_In; split.
    + apply rglob_In; exists es, rel; repeat split; auto.
      eapply rels_complete; eassumption.
    + unfold is_file; rewrite St; reflexivity.
  - unfold read_text; rewrite St; reflexivity.
Qed.

Lemma destination_in_docs_is_collected_witness :
  exists l,
    collect_markdown_files
      (snd (write_output (lit "text") (Some Sample.all_md) Example.scenario))
      Example.docs
    = Ok l
    /\ In (under Example.docs [lit "all.md"]) l
    /\ read_text
         (snd (write_output (lit "text") (Some Sample.all_md)
                            Example.scenario))
         (under Example.docs [lit "all.md"])
       = Ok (universal_newlines (lit "text")).
Proof.
  apply (destination_in_docs_is_collected
           (lit "text") Example.docs [lit "all.md"] Example.scenario).
  - reflexivity.
  - discriminate.
  - repeat constructor.
  - reflexivity.
Defined.

(** X16.  A destination that is a directory is never written, whatever
    the string: its ancestors are there, so [mkdir] changes nothing, and
    the write raises [IsADirectoryError] before the file is opened; the
    world is as it was.  That is so for the arguments [.], [/] and the
    empty string, which parse to a path without segments. *)
Theorem write_output_to_directory :
  (forall compiled dest w,
      is_dir w dest = true ->
      write_output compiled (Some dest) w = (Raise IsADirectoryError, w))
  /\ parse_path (lit ".") = mkPath Relative []
  /\ parse_path [] = mkPath Relative []
  /\ parse_path (lit "/") = mkPath Root [].
Proof.
  split; [|repeat split; reflexivity].
  intros compiled dest w D.
  assert (Dp : is_dir w (parent dest) = true).
  { destruct dest as [a ps]; unfold parent; cbn [anchor_of parts].
    destruct ps as [|s q _] using rev_ind; [exact D|].
    rewrite removelast_last; apply (resolve_snoc w a q s).
    apply is_dir_iff in D as [c [R _]]; eauto. }
  unfold write_output, bind; rewrite (mkdir_p_existing _ _ Dp).
  apply is_dir_iff in D as [c [R K]].
  apply kind_at_dir in K as [sub L].
  unfold write_text; rewrite R, L; reflexivity.
Qed.

Lemma write_output_to_directory_witness :
  write_output (lit "text") (Some Example.docs_dest) Example.scenario
  = (Raise IsADirectoryError, Example.scenario)
  /\ write_output (lit "text") (Some (parse_path (lit ".")))
                  Example.scenario
     = (Raise IsADirectoryError, Example.scenario).
Proof.
  split.
  - apply (proj1 write_output_to_directory
             (lit "text") Example.docs_dest Example.scenario).
    reflexivity.
  - apply (proj1 write_output_to_directory
             (lit "text") (parse_path (lit ".")) Example.scenario).
    reflexivity.
Defined.

(** ** Writes keep the tree well formed *)

Lemma alter_names f k es x :
  In x (map fst (alter f k es)) -> In x (map fst es) \/ x = k.
Proof.
  induction es as [|[k' n] es IH]; simpl.
  - destruct (f None); simpl; intuition auto.
  - destruct (Str.eqb k' k) eqn:E.
    + destruct (f (Some n)); simpl; intuition auto.
    + simpl; intros [H|H]; [auto|]; destruct (IH H); auto.
Qed.

Lemma wf_alter f k es :
  wf_node (Dir es) = true ->
  valid_name k = true ->
  (forall n n', wf_node n = true -> f (Some n) = Some n' ->
                wf_node n' = true) ->
  (forall n', f None = Some n' -> wf_node n' = true) ->
  wf_node (Dir (alter f k es)) = true.
Proof.
  intros W Hk Hsome Hnone.
  induction es as [|[k' n] es IH]; cbn [alter].
  - destruct (f None) as [n'|] eqn:E; [|reflexivity].
    simpl; rewrite Hk, (Hnone _ eq_refl); reflexivity.
  - simpl in W; rewrite !andb_true_iff, negb_true_iff in W.
    destruct W as [[Hk' D] [[Hv Wn] F]].
    assert (Wes : wf_node (Dir es) = true)
      by (simpl; rewrite D, F; reflexivity).
    destruct (Str.eqb k' k) eqn:E.
    + pose proof (Hsome n) as Hn.
      destruct (f (Some n)) as [n'|]; [|assumption].
      simpl; rewrite Hk', D, Hv, (Hn _ Wn eq_refl), F; reflexivity.
    + specialize (IH Wes); simpl in IH.
      apply andb_true_iff in IH as [D' F'].
      simpl; rewrite D', Hv, Wn, F', !andb_true_r.
      apply negb_true_iff, not_true_is_false; intros Hex.
      apply existsb_exists in Hex as [x [Hx Ex]].
      apply str_eqb_eq in Ex; subst x.
      destruct (alter_names _ _ _ _ Hx) as [Hin | ->].
      * assert (existsb (Str.eqb k') (map fst es) = true); [|congruence].
        apply existsb_exists; exists k'; split;
          [assumption | apply str_eqb_refl].
      * rewrite str_eqb_refl in E; discriminate.
Qed.

Lemma wf_put new c :
  wf_node new = true ->
  Forall (fun k => valid_name k = true) c ->
  forall es, wf_node (Dir es) = true -> wf_node (Dir (put es c new)) = true.
Proof.
  intros Wnew F; induction F as [|s rest Hs _ IH]; intros es W;
    cbn [put]; [assumption|].
  apply wf_alter; try assumption; unfold put_entry.
  - intros n n' Wn; destruct rest; [congruence|].
    destruct n as [d|sub]; intros E; injection E as <-;
      [assumption | apply IH; assumption].
  - intros n'; destruct rest; [congruence | discriminate].
Qed.

(** Where resolution ends, with the name it ends at. *)
Lemma namei_ends es segs :
  forall cur c,
    kind_at es cur = IsDir ->
    namei es cur segs = Ok c ->
    kind_at es c = IsDir
    \/ exists c0 s, c = c0 ++ [s] /\ kind_at es c0 = IsDir
                    /\ In s segs /\ plain s.
Proof.
  induction segs as [|s segs IH]; intros cur c K; simpl.
  - intros H; inversion H; subst; auto.
  - destruct (proj1 (kind_at_dir _ _) K) as [d ->].
    destruct (kind_at es (step cur s)) eqn:K'.
    + destruct segs as [|s' segs]; simpl;
        [|unfold kind_at in K';
          destruct (lookup es (step cur s)) as [[fd|sub]|]; discriminate].
      intros H; inversion H; subst c.
      unfold step in *; destruct (Str.eqb s (lit "..")) eqn:E.
      * apply kind_at_dir in K as [d' K].
        apply lookup_removelast in K as [d'' K].
        unfold kind_at in K'; rewrite K in K'; discriminate.
      * right; exists cur, s; repeat split; auto.
    + destruct segs as [|s' segs]; simpl;
        [|unfold kind_at in K';
          destruct (lookup es (step cur s)) as [[fd|sub]|]; discriminate].
      intros H; inversion H; subst c.
      unfold step in *; destruct (Str.eqb s (lit "..")) eqn:E.
      * apply kind_at_dir in K as [d' K].
        apply lookup_removelast in K as [d'' K].
        unfold kind_at in K'; rewrite K in K'; discriminate.
      * right; exists cur, s; repeat split; auto.
    + intros H; destruct (IH _ _ K' H) as [Kc|[c0 [s0 [E [K0 [Hin Hp]]]]]];
        [auto|].
      right; exists c0, s0; repeat split; auto.
Qed.

Lemma resolve_ends w p c :
  resolve w p = Ok c ->
  kind_at (root w) c <> IsDir ->
  exists c0 s, c = c0 ++ [s] /\ kind_at (root w) c0 = IsDir
               /\ In s (parts p) /\ plain s.
Proof.
  unfold resolve.
  destruct (lookup (root w) (start w (anchor_of p))) as [[d|sub]|] eqn:E;
    try discriminate.
  intros H K.
  destruct (namei_ends _ _ _ _ (proj2 (kind_at_dir _ _) (ex_intro _ _ E)) H)
    as [K'|H']; [contradiction | assumption].
Qed.

(** A leaf put where a nameable path resolves keeps the tree well
    formed. *)
Lemma wf_put_resolved w p c new :
  wf w -> nameable p -> resolve w p = Ok c ->
  kind_at (root w) c <> IsDir -> wf_node new = true ->
  wf (set_root w (put (root w) c new)).
Proof.
  intros W Hn R K Wnew.
  destruct (resolve_ends _ _ _ R K) as [c0 [s [-> [K0 [Hin Hp]]]]].
  unfold wf; simpl root; apply wf_put; [assumption| |assumption].
  apply Forall_app; split.
  - apply kind_at_dir in K0 as [d L].
    apply (wf_lookup_names _ _ _ W L).
  - constructor; [|constructor].
    unfold nameable in Hn; rewrite Forall_forall in Hn.
    destruct (Hn s Hin) as [Hv | ->]; [assumption|].
    unfold plain in Hp; rewrite str_eqb_refl in Hp; discriminate.
Qed.

Lemma os_mkdir_wf p w r w' :
  wf w -> nameable p -> os_mkdir p w = (r, w') -> wf w'.
Proof.
  intros W Hn; unfold os_mkdir.
  destruct (resolve w p) as [c|e] eqn:R;
    [|intros H; inversion H; subst; assumption].
  destruct (lookup (root w) c) as [n|] eqn:L;
    intros H; inversion H; subst; [assumption|].
  eapply wf_put_resolved; eauto.
  unfold kind_at; rewrite L; discriminate.
Qed.

Lemma mkdir_here_wf exist_ok p w r w' :
  wf w -> nameable p -> mkdir_here exist_ok p w = (r, w') -> wf w'.
Proof.
  intros W Hn; unfold mkdir_here.
  destruct (os_mkdir p w) as [[[]|e] w1] eqn:E;
    apply (os_mkdir_wf _ _ _ _ W Hn) in E.
  - intros H; inversion H; subst; assumption.
  - destruct e; try destruct (negb exist_ok || negb (is_dir w1 p));
      intros H; inversion H; subst; assumption.
Qed.

Lemma mkdir_parents_wf a q :
  forall w r w',
    wf w -> nameable (mkPath a q) ->
    mkdir_parents a (rev q) w = (r, w') -> wf w'.
Proof.
  induction q as [|s q IH] using rev_ind; intros w r w' W Hn.
  - rewrite mkdir_parents_nil.
    destruct (os_mkdir (mkPath a []) w) as [[[]|e] w1] eqn:E;
      apply (os_mkdir_wf _ _ _ _ W Hn) in E.
    + intros H; inversion H; subst; assumption.
    + destruct e; try destruct (negb (is_dir w1 _));
        intros H; inversion H; subst; assumption.
  - rewrite mkdir_parents_snoc.
    assert (Hq : nameable (mkPath a q)).
    { unfold nameable in *; simpl in *.
      apply Forall_app in Hn; tauto. }
    destruct (os_mkdir (mkPath a (q ++ [s])) w) as [[[]|e] w1] eqn:E;
      apply (os_mkdir_wf _ _ _ _ W Hn) in E.
    + intros H; inversion H; subst; assumption.
    + destruct e; try destruct (negb (is_dir w1 _));
        try (intros H; inversion H; subst; assumption).
      unfold bind.
      destruct (mkdir_parents a (rev q) w1) as [[[]|e1] w2] eqn:E1;
        apply (IH _ _ _ E Hq) in E1.
      * apply mkdir_here_wf; assumption.
      * intros H; inversion H; subst; assumption.
Qed.

Lemma write_output_wf compiled dest w r w' :
  wf w -> nameable dest ->
  write_output compiled (Some dest) w = (r, w') ->
  wf w'.
Proof.
  intros W Hn; unfold write_output, bind, mkdir_p.
  assert (Hpar : nameable (mkPath (anchor_of (parent dest))
                                  (parts (parent dest)))).
  { unfold nameable, parent in *; simpl.
    destruct (parts dest) as [|s q _] using rev_ind; [constructor|].
    rewrite removelast_last; apply Forall_app in Hn; tauto. }
  destruct (mkdir_parents _ _ w) as [[[]|e1] w1] eqn:E1;
    apply (mkdir_parents_wf _ _ _ _ _ W Hpar) in E1;
    [|intros H; inversion H; subst; assumption].
  intros H.
  destruct (write_text_cases dest compiled w1) as [[c [R [K E]]]|[e [E _]]];
    rewrite E in H; [|inversion H; subst; assumption].
  destruct (encodable compiled); inversion H; subst;
    apply (wf_put_resolved w1 dest c); auto.
Qed.

(** No piece of [s.split(sep)] holds the separator. *)
Lemma split_no_sep sep s :
  Forall (fun x => existsb (N.eqb sep) x = false) (Str.split sep s).
Proof.
  induction s as [|ch r IH]; cbn [Str.split].
  - repeat constructor.
  - destruct (N.eqb ch sep) eqn:E; [constructor; [reflexivity|assumption]|].
    destruct (Str.split sep r) as [|l ls]; [repeat constructor|].
    + simpl; rewrite N.eqb_sym, E; reflexivity.
    + inversion IH; subst; constructor; [|assumption].
      simpl; rewrite N.eqb_sym, E; assumption.
Qed.

(** The segments of [Path(s)] are names, or [..]. *)
Lemma parse_path_nameable s : nameable (parse_path s).
Proof.
  unfold parse_path, nameable; destruct (splitroot s) as [a rel].
  cbn [parts]; apply Forall_forall; intros x Hx.
  apply filter_In in Hx as [Hx Hk].
  pose proof (split_no_sep SLASH rel) as F; rewrite Forall_forall in F.
  specialize (F x Hx).
  destruct (Str.eqb x (lit "..")) eqn:E;
    [right; apply str_eqb_eq; assumption | left].
  unfold valid_name; unfold keep_segment in Hk.
  rewrite Hk, E, F; reflexivity.
Qed.

(** X17.  [write_output] to [Path(s)] keeps the tree well formed, whatever
    the string [s]: the names in every directory are distinct, not empty,
    not [.] or [..] and without [/] after the call as they were before,
    whether the call returns or raises. *)
Theorem write_output_keeps_wf compiled s w r w' :
  wf w ->
  write_output compiled (Some (parse_path s)) w = (r, w') ->
  wf w'.
Proof.
  intros W; apply write_output_wf; [assumption|apply parse_path_nameable].
Qed.

Lemma write_output_keeps_wf_witness :
  wf (snd (write_output (lit "text") (Some (parse_path (lit "x//./b/../y")))
                        Example.scenario)).
Proof.
  apply (write_output_keeps_wf
           (lit "text") (lit "x//./b/../y") Example.scenario
           (fst (write_output (lit "text")
                              (Some (parse_path (lit "x//./b/../y")))
                              Example.scenario))).
  - reflexivity.
  - reflexivity.
Defined.

(** ** A second run *)

Lemma write_output_ok_frame compiled dest w w' :
  write_output compiled (Some dest) w = (Ok tt, w') ->
  exists c,
    resolve w' dest = Ok c
    /\ forall q, q <> c ->
                 kind_at (root w') q = kind_at (root w) q
                 \/ (kind_at (root w) q = Missing
                     /\ kind_at (root w') q = IsDir).
Proof.
  unfold write_output, bind, mkdir_p.
  destruct (mkdir_parents _ _ w) as [[[]|e1] w1] eqn:E1;
    [|intros H; inversion H].
  pose proof (mkdir_parents_only_new_dirs _ _ _ _ _ E1) as N1.
  intros E2.
  destruct (write_text_one_file _ _ _ _ _ N1 E2) as [_ [c [R [_ Fr]]]].
  exists c; auto.
Qed.

(** What a write outside the markdown files of a directory leaves of
    them: the same files, with the same content. *)
Lemma md_files_frame w w' docs cdocs c :
  wf w -> extends w w' ->
  resolve w docs = Ok cdocs ->
  (forall q, q <> c ->
             kind_at (root w') q = kind_at (root w) q
             \/ (kind_at (root w) q = Missing
                 /\ kind_at (root w') q = IsDir)) ->
  (forall rel, c = cdocs ++ rel -> matches_md (last rel []) = false) ->
  (forall p, md_file_under w docs p <-> md_file_under w' docs p)
  /\ (forall p, md_file_under w docs p -> read_text w p = read_text w' p).
Proof.
  intros W X R Fr Hout.
  pose proof (resolve_mono _ _ _ _ X R) as R'.
  assert (Hne : forall rel : list str,
             matches_md (last rel []) = true -> cdocs ++ rel <> c).
  { intros rel Hm E; pose proof (Hout rel (eq_sym E)); congruence. }
  assert (Fwd : forall p es (rel : list str) d,
             stat w docs = Ok (Dir es) ->
             lookup es rel = Some (File d) ->
             p = under docs rel ->
             matches_md (last rel []) = true ->
             exists es', stat w' docs = Ok (Dir es')
                         /\ lookup es' rel = Some (File d)
                         /\ Forall plain rel).
  { intros p es rel d St L -> Hm.
    destruct (stat_inv _ _ _ St) as [c0 [R0 L0]].
    rewrite R in R0; inversion R0; subst c0.
    assert (K : kind_at (root w) (cdocs ++ rel) = IsFile d)
      by (unfold kind_at; rewrite lookup_app, L0, L; reflexivity).
    assert (Lw : lookup (root w) (cdocs ++ rel) = Some (File d))
      by (rewrite lookup_app, L0; assumption).
    assert (K' : kind_at (root w') (cdocs ++ rel) = IsFile d).
    { destruct (Fr _ (Hne rel Hm)) as [E|[E _]]; congruence. }
    assert (Kd : kind_at (root w') cdocs = IsDir).
    { apply (proj2 X); apply kind_at_dir; eauto. }
    apply kind_at_dir in Kd as [es' Ld].
    exists es'; split; [eapply stat_intro; eassumption|]; split.
    - unfold kind_at in K'; rewrite lookup_app, Ld in K'.
      destruct (lookup es' rel) as [[d'|sub]|]; inversion K'; reflexivity.
    - destruct (wf_lookup _ _ _ W Lw) as [_ F].
      apply Forall_app in F; tauto. }
  split.
  - intros p; split.
    + intros [es [rel [d [St [L [E Hm]]]]]].
      destruct (Fwd p es rel d St L E Hm) as [es' [St' [L' _]]].
      exists es', rel, d; auto.
    + intros [es' [rel [d [St' [L' [E Hm]]]]]].
      destruct (stat_inv _ _ _ St') as [c0 [R0 L0]].
      rewrite R' in R0; inversion R0; subst c0.
      assert (K' : kind_at (root w') (cdocs ++ rel) = IsFile d)
        by (unfold kind_at; rewrite lookup_app, L0, L'; reflexivity).
      assert (K : kind_at (root w) (cdocs ++ rel) = IsFile d).
      { destruct (Fr _ (Hne rel Hm)) as [E'|[_ E']]; congruence. }
      unfold kind_at in K; rewrite lookup_app in K.
      destruct (lookup (root w) cdocs) as [[fd|es]|] eqn:Ld;
        [|exists es, rel, d; repeat split; auto;
          [eapply stat_intro; eassumption
          |destruct (lookup es rel) as [[d'|sub]|]; inversion K; reflexivity]
         |discriminate].
      destruct rel as [|x rel]; [|discriminate].
      discriminate.
  - intros p [es [rel [d [St [L [E Hm]]]]]].
    destruct (Fwd p es rel d St L E Hm) as [es' [St' [L' F]]].
    subst p; unfold read_text.
    rewrite (stat_under _ _ _ _ _ St L F), (stat_under _ _ _ _ _ St' L' F).
    reflexivity.
Qed.

(** X18.  A second run with the same destination changes nothing, when the
    destination is not one of the files the run collects: on a well-formed
    tree, if [main] has written the compilation to a destination that
    does not resolve to a place beneath the documentation directory with a
    name ending in [.md], then running it again returns and leaves the
    world, the destination included, as the first run left it. *)
Theorem main_again script repo_root s w w' cdocs c :
  parents_nth script 1 = Ok repo_root ->
  wf w ->
  s <> lit "-" ->
  main script (Some s) w = (Ok tt, w') ->
  resolve w (docs_dir_of repo_root) = Ok cdocs ->
  resolve w' (parse_path s) = Ok c ->
  (forall rel, c = cdocs ++ rel -> matches_md (last rel []) = false) ->
  main script (Some s) w' = (Ok tt, w').
Proof.
  intros P W Hs Hm Rd Rc Hout.
  rewrite (main_unfold _ _ _ _ P) in Hm; cbv zeta in Hm.
  destruct (negb (exists_ w (docs_dir_of repo_root))); [inversion Hm|].
  destruct (collect_markdown_files w (docs_dir_of repo_root))
    as [[|p l]|e] eqn:Ec; try (inversion Hm; fail).
  destruct (build_compilation w (p :: l) repo_root) as [compiled|e] eqn:Eb;
    [|inversion Hm].
  assert (Ed : destination_of (parse_args (Some s)) = Some (parse_path s)).
  { unfold destination_of, parse_args.
    rewrite (proj2 (str_eqb_neq _ _) Hs); reflexivity. }
  rewrite Ed in Hm.
  destruct (write_output_ok _ _ _ _ Hm) as [X _].
  destruct (write_output_ok_frame _ _ _ _ Hm) as [c' [Rc' Fr]].
  rewrite Rc in Rc'; inversion Rc'; subst c'.
  pose proof (write_output_wf _ _ _ _ _ W (parse_path_nameable s) Hm) as W'.
  destruct (md_files_frame _ _ _ _ _ W X Rd Fr Hout) as [Same Reads].
  destruct (collect_spec w (docs_dir_of repo_root) W)
    as [l1 [E1 [N1 [M1 S1]]]].
  destruct (collect_spec w' (docs_dir_of repo_root) W')
    as [l2 [E2 [N2 [M2 S2]]]].
  rewrite Ec in E1; inversion E1; subst l1.
  assert (El : l2 = p :: l).
  { apply (strictly_sorted_unique (rel_lt (docs_dir_of repo_root))); auto.
    - intros a b; apply rel_lt_asym.
    - intros x; rewrite M1, M2; symmetry; apply Same. }
  subst l2.
  rewrite (main_from_collected _ _ _ _ _ _ P E2), Ed.
  assert (Eb' : build_compilation w' (p :: l) repo_root = Ok compiled).
  { rewrite <- Eb; unfold build_compilation.
    rewrite (build_sections_same_reads w' w repo_root (p :: l));
      [reflexivity|].
    intros x Hx; symmetry; apply Reads, M1, Hx. }
  rewrite Eb'.
  destruct (write_output_again _ _ _ _ _ Hm) as [r' [E' Hr]].
  rewrite E', (Hr eq_refl); reflexivity.
Qed.

Lemma main_again_witness :
  main Example.script (Some (lit "out/all/c.md"))
       (snd (main Example.script (Some (lit "out/all/c.md"))
                  Example.scenario))
  = (Ok tt,
     snd (main Example.script (Some (lit "out/all/c.md"))
               Example.scenario)).
Proof.
  apply (main_again
           Example.script Example.repo (lit "out/all/c.md")
           Example.scenario
           (snd (main Example.script (Some (lit "out/all/c.md"))
                      Example.scenario))
           [lit "repo"; lit "docs"; lit "10_language"]
           [lit "repo"; lit "out"; lit "all"; lit "c.md"]).
  - reflexivity.
  - reflexivity.
  - discriminate.
  - reflexivity.
  - reflexivity.
  - reflexivity.
  - intros rel E; inversion E.
Defined.
